(** * CoreSplorer JSON generator: validator, graph builder, closure engine, emitters

    Shallow embedding of [tools/json_generator/src/generate.py].

    Conventions of the model.
    - A Python [str] is a [string] (its UTF-8 bytes): splitting on ["-"] and
      the lexicographic comparison of strings agree on code points and on
      UTF-8 bytes.
    - A node is a Python [dict]; the keys the program reads are the fields of
      the record [node], each one optional ([None] = key absent).
    - [d[k]] on an absent key raises [KeyError]: functions that index this
      way return a [result].
    - [dict] used for lookups only is a [gmap]; a [set] is a [gset]; a [dict]
      whose insertion order reaches the output is an association list.
    - The iteration order of a Python [set] is unspecified: every function
      that iterates a set takes the order as a parameter [set_iter]. *)

From Stdlib Require Import Ascii String.
From stdpp Require Import gmap strings list fin_maps sorting.

Local Open Scope string_scope.
Local Open Scope list_scope.
Local Open Scope nat_scope.

(** ** Data model *)

(** An edge declaration [{"target": id}] inside a node's ["edges"] list. *)
Record edge_decl := EdgeDecl { e_target : option string }.

(** A node record as loaded from the YAML source. *)
Record node := Node {
  n_id : option string;
  n_label : option string;
  n_type : option string;
  n_app : option string;
  n_owner : option string;
  n_last_modified : option string;
  n_spl_code : option string;
  n_edges : option (list edge_decl)
}.

#[global] Instance edge_decl_eq_dec : EqDecision edge_decl.
Proof. solve_decision. Defined.

#[global] Instance node_eq_dec : EqDecision node.
Proof. solve_decision. Defined.

(** A (source, target) pair, always in the forward sense of the edge. *)
Definition edge : Type := string * string.

(** Outcome of code that may raise [KeyError].  [Unfinished] is the outcome
    of a [while] loop whose unrolling budget ran out. *)
Inductive result (A : Type) : Type :=
  | Ok (a : A)
  | KeyError (key : string)
  | Unfinished.
Arguments Ok {A} a.
Arguments KeyError {A} key.
Arguments Unfinished {A}.

#[global] Instance result_ret : MRet result := λ A a, Ok a.
#[global] Instance result_bind : MBind result := λ A B k r,
  match r with
  | Ok a => k a
  | KeyError key => KeyError key
  | Unfinished => Unfinished
  end.

(** [d[key]] for an optional field. *)
Definition getitem {A} (key : string) (o : option A) : result A :=
  match o with
  | Some a => Ok a
  | None => KeyError key
  end.

(** [node.get("edges", [])]. *)
Definition get_edges (n : node) : list edge_decl := default [] (n_edges n).

Fixpoint mapM {A B} (f : A → result B) (l : list A) : result (list B) :=
  match l with
  | [] => Ok []
  | a :: l' => b ← f a; bs ← mapM f l'; Ok (b :: bs)
  end.

(** ** Validator *)

(** [s.split(sep)] for a one-character separator. *)
Fixpoint split (sep : ascii) (s : string) : list string :=
  match s with
  | EmptyString => [EmptyString]
  | String c s' =>
      if Ascii.eqb c sep then EmptyString :: split sep s'
      else match split sep s' with
           | p :: ps => String c p :: ps
           | [] => [String c EmptyString]
           end
  end.

Definition validate_id_format (node_id : string) : bool :=
  let parts := split "-"%char node_id in
  bool_decide (3 ≤ List.length parts)%nat.

(** The messages [validate_nodes] appends, in the order of the source:
    - [MissingField i f]: "Node i: Missing required field 'f'"
    - [DuplicateId x]: "Node 'x': Duplicate ID"
    - [BadIdFormat x]: "Node 'x': ID doesn't match {name}-{app}-{type} pattern"
    - [InvalidType x t]: "Node 'x': Invalid type 't'. Must be one of ..."
    - [EdgeMissingTarget x]: "Node 'x': Edge missing 'target' field"
    - [DanglingTarget x t]: "Node 'x': Edge references non-existent target 't'" *)
Inductive verror : Type :=
  | MissingField (i : nat) (field : string)
  | DuplicateId (node_id : string)
  | BadIdFormat (node_id : string)
  | InvalidType (node_id : string) (ty : string)
  | EdgeMissingTarget (node_id : string)
  | DanglingTarget (node_id : string) (target : string).

Definition required_fields : list string :=
  ["id"; "label"; "type"; "app"; "owner"; "last_modified"].

Definition valid_types : gset string :=
  list_to_set ["index"; "saved_search"; "macro"; "lookup_def"; "lookup_file";
               "dashboard"; "data_model"; "event_type"].

(** [field in node]. *)
Definition has_field (field : string) (n : node) : bool :=
  if String.eqb field "id" then bool_decide (is_Some (n_id n))
  else if String.eqb field "label" then bool_decide (is_Some (n_label n))
  else if String.eqb field "type" then bool_decide (is_Some (n_type n))
  else if String.eqb field "app" then bool_decide (is_Some (n_app n))
  else if String.eqb field "owner" then bool_decide (is_Some (n_owner n))
  else if String.eqb field "last_modified" then bool_decide (is_Some (n_last_modified n))
  else if String.eqb field "spl_code" then bool_decide (is_Some (n_spl_code n))
  else if String.eqb field "edges" then bool_decide (is_Some (n_edges n))
  else false.

(** [{node["id"] for node in nodes if "id" in node}]. *)
Definition all_ids_of (nodes : list node) : gset string :=
  list_to_set (omap n_id nodes).

(** The loop over [required_fields]. *)
Definition missing_fields (i : nat) (n : node) : list verror :=
  MissingField i <$> filter (λ f, has_field f n = false) required_fields.

(** The body of the loop over one node's edges. *)
Definition check_edge (all_ids : gset string) (node_id : string) (e : edge_decl)
    : list verror :=
  match e_target e with
  | None => [EdgeMissingTarget node_id]
  | Some t => if decide (t ∈ all_ids) then [] else [DanglingTarget node_id t]
  end.

(** The checks made on a node that has an id, after the required fields. *)
Definition id_checks (all_ids seen_ids : gset string) (node_id : string) (n : node)
    : list verror :=
  (if decide (node_id ∈ seen_ids) then [DuplicateId node_id] else [])
  ++ (if validate_id_format node_id then [] else [BadIdFormat node_id])
  ++ match n_type n with
     | Some t => if decide (t ∈ valid_types) then [] else [InvalidType node_id t]
     | None => []
     end
  ++ (get_edges n ≫= check_edge all_ids node_id).

(** One iteration of [for i, node in enumerate(nodes)]: the new [seen_ids]
    and the errors appended. *)
Definition check_node (all_ids : gset string) (i : nat) (n : node)
    (seen_ids : gset string) : gset string * list verror :=
  match n_id n with
  | None => (seen_ids, missing_fields i n)
  | Some node_id =>
      ({[node_id]} ∪ seen_ids,
       missing_fields i n ++ id_checks all_ids seen_ids node_id n)
  end.

Fixpoint validate_loop (all_ids : gset string) (i : nat) (nodes : list node)
    (seen_ids : gset string) : list verror :=
  match nodes with
  | [] => []
  | n :: rest =>
      let '(seen_ids', errs) := check_node all_ids i n seen_ids in
      errs ++ validate_loop all_ids (S i) rest seen_ids'
  end.

Definition validate_nodes (nodes : list node) : list verror :=
  validate_loop (all_ids_of nodes) 0 nodes ∅.

(** ** Reverse-reference index *)

Fixpoint foldM {A B} (f : B → A → result B) (b : B) (l : list A) : result B :=
  match l with
  | [] => Ok b
  | a :: l' => b' ← f b a; foldM f b' l'
  end.

(** The body of [for edge in edges] in [build_reverse_lookup]. *)
Definition rl_add_edge (node_id : string) (reverse_lookup : gmap string (gset string))
    (e : edge_decl) : result (gmap string (gset string)) :=
  target ← getitem "target" (e_target e);
  Ok (match reverse_lookup !! target with
      | Some refs => <[target := {[node_id]} ∪ refs]> reverse_lookup
      | None => reverse_lookup
      end).

(** The body of [for node in nodes] in [build_reverse_lookup]. *)
Definition rl_add_node (reverse_lookup : gmap string (gset string)) (n : node)
    : result (gmap string (gset string)) :=
  node_id ← getitem "id" (n_id n);
  foldM (rl_add_edge node_id) reverse_lookup (get_edges n).

Definition build_reverse_lookup (nodes : list node)
    : result (gmap string (gset string)) :=
  ids ← mapM (λ n, getitem "id" (n_id n)) nodes;
  foldM rl_add_node (foldl (λ m i, <[i := ∅]> m) ∅ ids) nodes.

(** ** Graph builder *)

(** [d[k].append(v)] on a [defaultdict(list)]. *)
Definition dd_append (k v : string) (d : gmap string (list string))
    : gmap string (list string) :=
  <[k := default [] (d !! k) ++ [v]]> d.

(** [if k not in d: d[k] = []]. *)
Definition dd_ensure (k : string) (d : gmap string (list string))
    : gmap string (list string) :=
  match d !! k with
  | Some _ => d
  | None => <[k := []]> d
  end.

Abbreviation adjacency := (gmap string (list string)).

Definition gs_add_edge (node_id : string) (g : adjacency * adjacency)
    (e : edge_decl) : result (adjacency * adjacency) :=
  target ← getitem "target" (e_target e);
  Ok (dd_append node_id target g.1, dd_append target node_id g.2).

Definition gs_add_node (g : adjacency * adjacency) (n : node)
    : result (adjacency * adjacency) :=
  node_id ← getitem "id" (n_id n);
  foldM (gs_add_edge node_id) (dd_ensure node_id g.1, dd_ensure node_id g.2)
        (get_edges n).

(** Returns [(outgoing, incoming)]. *)
Definition build_graph_structures (nodes : list node)
    : result (adjacency * adjacency) :=
  foldM gs_add_node (∅, ∅) nodes.

(** ** Closure engine *)

(** The local variables of [collect_transitive_edges]. *)
Record bfs_state := BfsState {
  edges : list edge;
  visited_edges : gset edge;
  visited_nodes : gset string;
  queue : list string
}.

(** The pair recorded for [neighbor] while [current_id] is processed. *)
Definition oriented (direction current_id neighbor : string) : edge :=
  if String.eqb direction "downstream" then (current_id, neighbor)
  else (neighbor, current_id).

(** The body of [for neighbor in neighbors]. *)
Definition visit_neighbor (direction current_id : string) (st : bfs_state)
    (neighbor : string) : bfs_state :=
  let e := oriented direction current_id neighbor in
  let st1 :=
    if decide (e ∈ visited_edges st) then st
    else BfsState (edges st ++ [e]) ({[e]} ∪ visited_edges st)
                  (visited_nodes st) (queue st) in
  if decide (neighbor ∈ visited_nodes st1) then st1
  else BfsState (edges st1) (visited_edges st1)
                ({[neighbor]} ∪ visited_nodes st1) (queue st1 ++ [neighbor]).

(** [adjacency.get(current_id, [])]. *)
Definition neighbors_of (adj : adjacency) (current_id : string) : list string :=
  default [] (adj !! current_id).

(** One pass through the body of [while queue]; [None] when the queue is
    empty and the loop exits. *)
Definition bfs_iteration (adj : adjacency) (direction : string) (st : bfs_state)
    : option bfs_state :=
  match queue st with
  | [] => None
  | current_id :: rest =>
      Some (foldl (visit_neighbor direction current_id)
                  (BfsState (edges st) (visited_edges st) (visited_nodes st) rest)
                  (neighbors_of adj current_id))
  end.

(** The [while] loop, its body run at most [fuel] times. *)
Fixpoint bfs_while (fuel : nat) (adj : adjacency) (direction : string)
    (st : bfs_state) : result bfs_state :=
  match bfs_iteration adj direction st with
  | None => Ok st
  | Some st' =>
      match fuel with
      | 0 => Unfinished
      | S fuel' => bfs_while fuel' adj direction st'
      end
  end.

Definition bfs_init (start_id : string) : bfs_state :=
  BfsState [] ∅ {[start_id]} [start_id].

(** Every node id that occurs in an adjacency structure, as a key or as a
    neighbour. *)
Definition adj_nodes (adj : adjacency) : gset string :=
  dom adj ∪ ⋃ ((list_to_set ∘ snd) <$> map_to_list adj).

(** The number of loop passes granted to a traversal. *)
Definition bfs_budget (start_id : string) (adj : adjacency) : nat :=
  size ({[start_id]} ∪ adj_nodes adj).

Definition collect_transitive_edges (start_id : string) (adj : adjacency)
    (direction : string) : result (list edge) :=
  st ← bfs_while (bfs_budget start_id adj) adj direction (bfs_init start_id);
  Ok (edges st).

(** ** Order of [(source, target)] tuples *)

(** [e1 <= e2] on tuples of strings: lexicographic, strings compared
    character by character. *)
Definition edge_leb (e1 e2 : edge) : bool :=
  match String.compare e1.1 e2.1 with
  | Lt => true
  | Eq => String.leb e1.2 e2.2
  | Gt => false
  end.

Definition edge_le (e1 e2 : edge) : Prop := edge_leb e1 e2 = true.

#[global] Instance edge_le_dec : RelDecision edge_le.
Proof. intros e1 e2. unfold edge_le. apply _. Defined.

(** [sorted(xs)] on a list of edge tuples. *)
Definition sorted (xs : list edge) : list edge := merge_sort edge_le xs.

(** ** Artifact emitters *)

Record edge_obj := EdgeObj { source : string; target : string }.

Section emitters.
(** The order in which iterating a set of tuples yields its members. *)
Variable set_iter : gset edge → list edge.

Definition collect_all_edges_for_node (node_id : string)
    (outgoing incoming : adjacency) : result (list edge_obj) :=
  let all_edges : gset edge := ∅ in
  downstream_edges ← collect_transitive_edges node_id outgoing "downstream";
  let all_edges := all_edges ∪ list_to_set downstream_edges in
  upstream_edges ← collect_transitive_edges node_id incoming "upstream";
  let all_edges := all_edges ∪ list_to_set upstream_edges in
  Ok ((λ e, EdgeObj e.1 e.2) <$> sorted (set_iter all_edges)).

Record graph_node := GraphNode {
  g_id : string;
  g_label : string;
  g_type : string;
  g_app : string;
  g_owner : string;
  g_last_modified : string;
  g_edges : list edge_obj
}.

Record graph_json := GraphJson {
  version : string;
  nodes_of_graph : list graph_node
}.

(** The body of [for node in nodes] in [generate_graph_json]. *)
Definition graph_node_of (outgoing incoming : adjacency) (n : node)
    : result graph_node :=
  node_id ← getitem "id" (n_id n);
  all_edges ← collect_all_edges_for_node node_id outgoing incoming;
  label ← getitem "label" (n_label n);
  ty ← getitem "type" (n_type n);
  app ← getitem "app" (n_app n);
  owner ← getitem "owner" (n_owner n);
  last_modified ← getitem "last_modified" (n_last_modified n);
  Ok (GraphNode node_id label ty app owner last_modified all_edges).

Definition generate_graph_json (nodes : list node)
    (outgoing incoming : adjacency) : result graph_json :=
  graph_nodes ← mapM (graph_node_of outgoing incoming) nodes;
  Ok (GraphJson "1.0.0" graph_nodes).
End emitters.

Record index_entry := IndexEntry {
  ix_label : string;
  ix_type : string;
  ix_app : string;
  ix_owner : string;
  isolated : bool
}.

(** [d[k] = v] on a [dict] kept in insertion order: an existing key keeps
    its place and takes the new value, a new key goes last. *)
Fixpoint dict_set {V} (k : string) (v : V) (d : list (string * V))
    : list (string * V) :=
  match d with
  | [] => [(k, v)]
  | (k', v') :: d' =>
      if decide (k' = k) then (k, v) :: d' else (k', v') :: dict_set k v d'
  end.

(** [d.get(k)]. *)
Fixpoint dict_get {V} (k : string) (d : list (string * V)) : option V :=
  match d with
  | [] => None
  | (k', v') :: d' => if decide (k' = k) then Some v' else dict_get k d'
  end.

(** The body of [for node in nodes] in [generate_index_json]. *)
Definition index_add_node (reverse_lookup : gmap string (gset string))
    (index : list (string * index_entry)) (n : node)
    : result (list (string * index_entry)) :=
  node_id ← getitem "id" (n_id n);
  let edges := get_edges n in
  let has_edges := bool_decide (edges ≠ []) in
  let has_incoming :=
    match reverse_lookup !! node_id with
    | Some refs => bool_decide (refs ≠ ∅)
    | None => false
    end in
  label ← getitem "label" (n_label n);
  ty ← getitem "type" (n_type n);
  app ← getitem "app" (n_app n);
  owner ← getitem "owner" (n_owner n);
  Ok (dict_set node_id
        (IndexEntry label ty app owner (negb has_edges && negb has_incoming))
        index).

Definition generate_index_json (nodes : list node)
    (reverse_lookup : gmap string (gset string))
    : result (list (string * index_entry)) :=
  foldM (index_add_node reverse_lookup) [] nodes.

Record object_json := ObjectJson {
  o_id : string;
  o_label : string;
  o_type : string;
  o_app : string;
  o_owner : string;
  o_last_modified : string;
  o_spl_code : option string;
  upstream_count : nat;
  downstream_count : nat
}.

Definition generate_object_json (n : node)
    (reverse_lookup : gmap string (gset string)) : result object_json :=
  node_id ← getitem "id" (n_id n);
  let edges := get_edges n in
  label ← getitem "label" (n_label n);
  ty ← getitem "type" (n_type n);
  app ← getitem "app" (n_app n);
  owner ← getitem "owner" (n_owner n);
  last_modified ← getitem "last_modified" (n_last_modified n);
  Ok (ObjectJson node_id label ty app owner last_modified (n_spl_code n)
        (size (default ∅ (reverse_lookup !! node_id))) (length edges)).

(** ** The run, from validation on

    [main] after the node list is loaded: what it writes to the file system
    and how it ends.  Printing is left out. *)

Inductive json_doc : Type :=
  | IndexDoc (index : list (string * index_entry))
  | GraphDoc (graph : graph_json)
  | ObjectDoc (obj : object_json).

Inductive fs_op : Type :=
  | Mkdir (path : string)
  | WriteJson (path : string) (data : json_doc).

(** How a run ends: [sys.exit(code)], a normal return (status 0), or an
    uncaught exception. *)
Inductive ending : Type :=
  | Exit (code : nat)
  | Return
  | Raise (key : string)
  | NoEnd.

Definition ending_of {A} (r : result A) : ending :=
  match r with
  | Ok _ => Return
  | KeyError key => Raise key
  | Unfinished => NoEnd
  end.

(** [output_dir / name]. *)
Definition path_join (dir name : string) : string :=
  String.append dir (String.append "/" name).

(** The loop that writes one file per node: the writes done and the way
    the loop ends. *)
Fixpoint write_objects (nodes_dir : string)
    (reverse_lookup : gmap string (gset string)) (nodes : list node)
    : list fs_op * ending :=
  match nodes with
  | [] => ([], Return)
  | n :: rest =>
      match generate_object_json n reverse_lookup with
      | Ok object_data =>
          let '(ops, e) := write_objects nodes_dir reverse_lookup rest in
          (WriteJson (path_join nodes_dir (String.append (o_id object_data) ".json"))
                     (ObjectDoc object_data) :: ops, e)
      | r => ([], ending_of r)
      end
  end.

Section main.
Variable set_iter : gset edge → list edge.

(** Lines 413-438: build the derived structures, then write. *)
Definition generate_files (nodes : list node) (output_dir : string)
    : list fs_op * ending :=
  match build_reverse_lookup nodes with
  | Ok reverse_lookup =>
      match build_graph_structures nodes with
      | Ok (outgoing, incoming) =>
          let nodes_dir := path_join output_dir "nodes" in
          let ops1 := [Mkdir nodes_dir] in
          match generate_index_json nodes reverse_lookup with
          | Ok index_data =>
              let ops2 := ops1 ++ [WriteJson (path_join output_dir "index.json")
                                             (IndexDoc index_data)] in
              match generate_graph_json set_iter nodes outgoing incoming with
              | Ok graph_data =>
                  let ops3 := ops2 ++ [WriteJson (path_join output_dir "graph.json")
                                                 (GraphDoc graph_data)] in
                  let '(ops4, e) := write_objects nodes_dir reverse_lookup nodes in
                  (ops3 ++ ops4, e)
              | r => (ops2, ending_of r)
              end
          | r => (ops1, ending_of r)
          end
      | r => ([], ending_of r)
      end
  | r => ([], ending_of r)
  end.

(** Lines 397-438. *)
Definition main (nodes : list node) (validate_only : bool)
    (output_dir : string) : list fs_op * ending :=
  let errors := validate_nodes nodes in
  if bool_decide (errors ≠ []) then ([], Exit 1)
  else if validate_only then ([], Return)
  else generate_files nodes output_dir.
End main.

(** ** Summary statistics

    The figures [main] computes after the files are written (lines
    440-445); they are printed only. *)

(** [sum(1 for v in index_data.values() if v["isolated"])]. *)
Definition isolated_count (index_data : list (string * index_entry)) : nat :=
  length (filter (λ kv, isolated kv.2 = true) index_data).

(** The body of the loop that fills [type_counts]. *)
Definition count_type (type_counts : list (string * nat)) (n : node)
    : result (list (string * nat)) :=
  t ← getitem "type" (n_type n);
  Ok (dict_set t (default 0 (dict_get t type_counts) + 1) type_counts).

Definition type_counts (nodes : list node) : result (list (string * nat)) :=
  foldM count_type [] nodes.

(** * Vocabulary of the statements *)

(** ** Traversals *)

(** The quantity that each pass of the loop decreases by one: the nodes of
    [U] not yet visited, plus the length of the queue. *)
Definition bfs_measure (U : gset string) (st : bfs_state) : nat :=
  size (U ∖ visited_nodes st) + length (queue st).

(** [reach adj start x]: [x] is [start] or is reached from it by following
    the neighbour lists of [adj]. *)
Inductive reach (adj : adjacency) (start_id : string) : string → Prop :=
  | reach_start : reach adj start_id start_id
  | reach_step u v :
      reach adj start_id u → v ∈ neighbors_of adj u → reach adj start_id v.

(** The pairs a complete traversal has to record. *)
Definition closure_edge (adj : adjacency) (direction start_id : string)
    (e : edge) : Prop :=
  ∃ u v, e = oriented direction u v ∧ reach adj start_id u
         ∧ v ∈ neighbors_of adj u.

(** The invariant of the [while] loop of a traversal from [start_id]. *)
Record bfs_inv (adj : adjacency) (direction start_id : string)
    (st : bfs_state) : Prop := BfsInv {
  inv_start : start_id ∈ visited_nodes st;
  inv_reach : ∀ x, x ∈ visited_nodes st → reach adj start_id x;
  inv_queue : ∀ x, x ∈ queue st → x ∈ visited_nodes st;
  inv_edges_set : ∀ e, e ∈ edges st ↔ e ∈ visited_edges st;
  inv_nodup : NoDup (edges st);
  inv_sound : ∀ e, e ∈ edges st → closure_edge adj direction start_id e;
  inv_closed : ∀ u, u ∈ visited_nodes st → u ∉ queue st →
               ∀ v, v ∈ neighbors_of adj u →
                    v ∈ visited_nodes st ∧ oriented direction u v ∈ edges st
}.

(** The states at the head of the loop, from [st] on. *)
Fixpoint bfs_trace (fuel : nat) (adj : adjacency) (direction : string)
    (st : bfs_state) : list bfs_state :=
  st :: match bfs_iteration adj direction st with
        | None => []
        | Some st' =>
            match fuel with
            | 0 => []
            | S fuel' => bfs_trace fuel' adj direction st'
            end
        end.

(** What one pass appended to the queue: the queue after the pass, without
    what was left of the queue before it. *)
Definition appended (st st' : bfs_state) : list string :=
  drop (length (queue st) - 1) (queue st').

(** Every [queue.append] of the run from [st] on, in order. *)
Fixpoint bfs_enqueued (fuel : nat) (adj : adjacency) (direction : string)
    (st : bfs_state) : list string :=
  match bfs_iteration adj direction st with
  | None => []
  | Some st' =>
      appended st st'
      ++ match fuel with
         | 0 => []
         | S fuel' => bfs_enqueued fuel' adj direction st'
         end
  end.

(** ** Node lists *)

(** Moving a node one place down the list changes only the position shown
    in its missing-field messages. *)
Definition reindex (e : verror) : verror :=
  match e with
  | MissingField i f => MissingField (S i) f
  | _ => e
  end.

(** The targets a node declares, in order. *)
Definition targets_of (n : node) : list string := omap e_target (get_edges n).

(** [declares nodes u v]: some node with id [u] lists an edge to [v]. *)
Definition declares (nodes : list node) (u v : string) : Prop :=
  ∃ n, n ∈ nodes ∧ n_id n = Some u ∧ v ∈ targets_of n.

(** Every node has an id and every edge a target: what the stages after
    validation index without a check. *)
Definition well_keyed (nodes : list node) : Prop :=
  ∀ n, n ∈ nodes →
    is_Some (n_id n) ∧ ∀ e, e ∈ get_edges n → is_Some (e_target e).

(** Two node records that differ at most in the order of their edges
    (and in fields the graph does not read). *)
Definition same_but_edge_order (n n' : node) : Prop :=
  n_id n' = n_id n ∧ n_label n' = n_label n ∧ n_type n' = n_type n
  ∧ n_app n' = n_app n ∧ n_owner n' = n_owner n
  ∧ n_last_modified n' = n_last_modified n
  ∧ get_edges n' ≡ₚ get_edges n.

(** A record without the ["id"] key. *)
Definition node_without_id : node :=
  Node None (Some "l") (Some "macro") (Some "a") (Some "o") (Some "d") None None.

(** ** Emitted documents *)

(** The value of ["isolated"] computed for node [n] with id [N]. *)
Definition is_isolated (rl : gmap string (gset string)) (n : node) (N : string)
    : bool :=
  negb (bool_decide (get_edges n ≠ []))
  && negb (match rl !! N with
           | Some refs => bool_decide (refs ≠ ∅)
           | None => false
           end).

(** What iterating a set guarantees: every member once, in some order. *)
Definition set_iter_valid (set_iter : gset edge → list edge) : Prop :=
  ∀ X, set_iter X ≡ₚ elements X.

(** The order of the emitted [{source, target}] objects. *)
Definition edge_obj_le (o1 o2 : edge_obj) : Prop :=
  edge_le (source o1, target o1) (source o2, target o2).

(** ** Identifiers *)

(** The number of times character [c] occurs in [s]. *)
Fixpoint occurrences (c : ascii) (s : string) : nat :=
  match s with
  | EmptyString => 0
  | String c' s' => (if Ascii.eqb c' c then 1 else 0) + occurrences c s'
  end.

(** What an error message reports, read on the node list. *)
Definition violation (nodes : list node) (e : verror) : Prop :=
  match e with
  | MissingField i f =>
      ∃ n, nodes !! i = Some n ∧ f ∈ required_fields ∧ has_field f n = false
  | DuplicateId x =>
      ∃ i j n1 n2, i < j ∧ nodes !! i = Some n1 ∧ nodes !! j = Some n2
                   ∧ n_id n1 = Some x ∧ n_id n2 = Some x
  | BadIdFormat x =>
      (∃ n, n ∈ nodes ∧ n_id n = Some x) ∧ occurrences "-" x < 2
  | InvalidType x t =>
      ∃ n, n ∈ nodes ∧ n_id n = Some x ∧ n_type n = Some t ∧ t ∉ valid_types
  | EdgeMissingTarget x =>
      ∃ n d, n ∈ nodes ∧ n_id n = Some x ∧ d ∈ get_edges n ∧ e_target d = None
  | DanglingTarget x t =>
      ∃ n d, n ∈ nodes ∧ n_id n = Some x ∧ d ∈ get_edges n
             ∧ e_target d = Some t ∧ ∀ m, m ∈ nodes → n_id m ≠ Some t
  end.

(** A node list that respects the schema. *)
Definition well_formed (nodes : list node) : Prop :=
  (∀ n f, n ∈ nodes → f ∈ required_fields → has_field f n = true)
  ∧ NoDup (omap n_id nodes)
  ∧ (∀ n x, n ∈ nodes → n_id n = Some x → 2 ≤ occurrences "-" x)
  ∧ (∀ n t, n ∈ nodes → n_type n = Some t → t ∈ valid_types)
  ∧ (∀ n d, n ∈ nodes → d ∈ get_edges n →
       ∃ t m, e_target d = Some t ∧ m ∈ nodes ∧ n_id m = Some t).

(** ** Outcomes *)

(** [r] is a value, or a [KeyError] for one of the keys [K]. *)
Definition raises_only {A} (K : list string) (r : result A) : Prop :=
  match r with
  | Ok _ => True
  | KeyError k => k ∈ K
  | Unfinished => False
  end.

(** ** Adjacency lists read on the node list *)

(** The targets declared by the nodes with id [x], in declaration order. *)
Definition out_list (nodes : list node) (x : string) : list string :=
  nodes ≫= λ n, if decide (n_id n = Some x) then targets_of n else [].

(** The id of the declaring node, once for each declared edge to [v], in
    declaration order. *)
Definition in_list (nodes : list node) (v : string) : list string :=
  nodes ≫= λ n,
    match n_id n with
    | Some u => (λ _, u) <$> filter (λ t, t = v) (targets_of n)
    | None => []
    end.

(** ** Traversal states read in the other direction *)

(** The state of an upstream traversal that has done what the downstream
    traversal [st] has done: the same nodes, every pair turned around. *)
Definition swap_state (st : bfs_state) : bfs_state :=
  BfsState (prod_swap <$> edges st) (set_map prod_swap (visited_edges st))
           (visited_nodes st) (queue st).

(** ** Emitted records read on the node *)

(** [gn] is the [graph.json] entry of node [n]. *)
Definition graph_node_for (set_iter : gset edge → list edge)
    (outgoing incoming : adjacency) (n : node) (gn : graph_node) : Prop :=
  n_id n = Some (g_id gn) ∧ n_label n = Some (g_label gn)
  ∧ n_type n = Some (g_type gn) ∧ n_app n = Some (g_app gn)
  ∧ n_owner n = Some (g_owner gn)
  ∧ n_last_modified n = Some (g_last_modified gn)
  ∧ collect_all_edges_for_node set_iter (g_id gn) outgoing incoming
    = Ok (g_edges gn).

(** [kv] is the [index.json] item of node [n]. *)
Definition index_item_for (rl : gmap string (gset string)) (n : node)
    (kv : string * index_entry) : Prop :=
  n_id n = Some kv.1 ∧ n_label n = Some (ix_label kv.2)
  ∧ n_type n = Some (ix_type kv.2) ∧ n_app n = Some (ix_app kv.2)
  ∧ n_owner n = Some (ix_owner kv.2)
  ∧ isolated kv.2 = is_isolated rl n kv.1.

(** ** File-system operations of a run *)


(** ** Nodes without links *)

(** Node [n] declares no edge and no node of the list declares an edge to
    it. *)
Definition no_links (nodes : list node) (n : node) : Prop :=
  get_edges n = []
  ∧ match n_id n with
    | Some N => Forall (λ m, N ∉ targets_of m) nodes
    | None => True
    end.

#[global] Instance no_links_dec nodes n : Decision (no_links nodes n).
Proof. unfold no_links. destruct (n_id n); apply _. Defined.

(** ** Sample data

    Four knowledge objects: [a] and [b] reference each other, [b] also
    references [c], and [d] stands alone. *)

Definition sample_node (node_id : string) (targets : list string) : node :=
  Node (Some node_id) (Some "Label") (Some "macro") (Some "search")
       (Some "admin") (Some "2024-01-01") None
       (Some ((λ t, EdgeDecl (Some t)) <$> targets)).

Definition sample_nodes : list node :=
  [ sample_node "a-search-macro" ["b-search-macro"];
    sample_node "b-search-macro" ["a-search-macro"; "c-search-macro"];
    sample_node "c-search-macro" [];
    sample_node "d-search-macro" [] ].

(** The same objects, the edges of [b] declared in the other order. *)
Definition sample_nodes_reordered : list node :=
  [ sample_node "a-search-macro" ["b-search-macro"];
    sample_node "b-search-macro" ["c-search-macro"; "a-search-macro"];
    sample_node "c-search-macro" [];
    sample_node "d-search-macro" [] ].

(** A list that does not validate: the target of the edge is no node. *)
Definition sample_dangling : list node :=
  [ sample_node "a-search-macro" ["z-search-macro"] ].

(** An adjacency structure with one key, listing itself. *)
Definition sample_self_loop : adjacency :=
  {[ "a-search-macro" := ["a-search-macro"] ]}.

(** Two records with one id: the second one has another label and type. *)
Definition sample_duplicates : list node :=
  [ sample_node "a-search-macro" [];
    Node (Some "a-search-macro") (Some "Second") (Some "lookup_def")
         (Some "search") (Some "admin") (Some "2024-02-02") None None ].

(** An adjacency structure with a chain [a → b → c]. *)
Definition sample_chain : adjacency :=
  {[ "a-search-macro" := ["b-search-macro"];
     "b-search-macro" := ["c-search-macro"] ]}.

(** Two iteration orders of a set. *)
Definition iter_up (X : gset edge) : list edge := elements X.
Definition iter_down (X : gset edge) : list edge := reverse (elements X).

(** * Properties *)

(** ** The loop over the neighbours of one node *)

Section visit.
Context (direction current_id : string).

Local Abbreviation visit := (visit_neighbor direction current_id).
Local Abbreviation orient := (oriented direction current_id).

Lemma visit_neighbor_nodes st nb :
  visited_nodes (visit st nb) = {[nb]} ∪ visited_nodes st.
Proof.
  unfold visit_neighbor.
  destruct (decide (orient nb ∈ visited_edges st)); simpl;
    case_decide; simpl; set_solver.
Qed.

Lemma visit_neighbor_vedges st nb :
  visited_edges (visit st nb) = {[orient nb]} ∪ visited_edges st.
Proof.
  unfold visit_neighbor.
  destruct (decide (orient nb ∈ visited_edges st)); simpl;
    case_decide; simpl; set_solver.
Qed.

Lemma visit_neighbor_queue st nb :
  queue (visit st nb) =
    queue st ++ (if decide (nb ∈ visited_nodes st) then [] else [nb]).
Proof.
  unfold visit_neighbor.
  destruct (decide (orient nb ∈ visited_edges st)); simpl;
    case_decide; simpl; by rewrite ?app_nil_r.
Qed.

Lemma visit_neighbor_edges st nb :
  edges (visit st nb) =
    edges st ++ (if decide (orient nb ∈ visited_edges st) then [] else [orient nb]).
Proof.
  unfold visit_neighbor.
  destruct (decide (orient nb ∈ visited_edges st)); simpl;
    case_decide; simpl; by rewrite ?app_nil_r.
Qed.

Lemma visit_all_nodes ns st :
  visited_nodes (foldl visit st ns) = visited_nodes st ∪ list_to_set ns.
Proof.
  revert st. induction ns as [|nb ns IH]; intros st; simpl.
  - set_solver.
  - rewrite IH, visit_neighbor_nodes. set_solver.
Qed.

Lemma visit_all_vedges ns st :
  visited_edges (foldl visit st ns) =
    visited_edges st ∪ list_to_set (orient <$> ns).
Proof.
  revert st. induction ns as [|nb ns IH]; intros st; simpl.
  - set_solver.
  - rewrite IH, visit_neighbor_vedges. set_solver.
Qed.

(** What the loop appends to the queue: the neighbours not visited
    before, each one once. *)
Lemma visit_all_queue ns st :
  ∃ new, queue (foldl visit st ns) = queue st ++ new
         ∧ NoDup new
         ∧ ∀ x, x ∈ new ↔ x ∈ ns ∧ x ∉ visited_nodes st.
Proof.
  revert st. induction ns as [|nb ns IH]; intros st; simpl.
  - exists []. rewrite app_nil_r. split_and!; [done|constructor|set_solver].
  - destruct (IH (visit st nb)) as (new & Hq & Hnd & Hin).
    rewrite Hq, visit_neighbor_queue, <- app_assoc.
    eexists. split; [reflexivity|].
    setoid_rewrite visit_neighbor_nodes in Hin.
    case_decide; simpl.
    + split; [done|]. intros x. rewrite Hin. set_solver.
    + split.
      * constructor; [|done]. rewrite Hin. set_solver.
      * intros x. rewrite elem_of_cons, Hin.
        destruct (decide (x = nb)); set_solver.
Qed.

(** What the loop appends to [edges]: the oriented pairs not recorded
    before, each one once. *)
Lemma visit_all_edges ns st :
  ∃ new, edges (foldl visit st ns) = edges st ++ new
         ∧ NoDup new
         ∧ ∀ e, e ∈ new ↔ e ∈ orient <$> ns ∧ e ∉ visited_edges st.
Proof.
  revert st. induction ns as [|nb ns IH]; intros st; simpl.
  - exists []. rewrite app_nil_r. split_and!; [done|constructor|set_solver].
  - destruct (IH (visit st nb)) as (new & Hq & Hnd & Hin).
    rewrite Hq, visit_neighbor_edges, <- app_assoc.
    eexists. split; [reflexivity|].
    setoid_rewrite visit_neighbor_vedges in Hin.
    case_decide; simpl.
    + split; [done|]. intros x. rewrite Hin. set_solver.
    + split.
      * constructor; [|done]. rewrite Hin. set_solver.
      * intros x. rewrite elem_of_cons, Hin.
        destruct (decide (x = orient nb)); set_solver.
Qed.
End visit.

(** ** The [while] loop *)

Lemma neighbors_in_adj_nodes adj current_id x :
  x ∈ neighbors_of adj current_id → x ∈ adj_nodes adj.
Proof.
  unfold neighbors_of, adj_nodes. intros Hx.
  destruct (adj !! current_id) as [l|] eqn:Hl; simpl in Hx; [|set_solver].
  apply elem_of_union_r, elem_of_union_list.
  exists (list_to_set l). split; [|set_solver].
  apply list_elem_of_fmap. exists (current_id, l). split; [done|].
  by apply elem_of_map_to_list.
Qed.

Lemma bfs_iteration_Some adj direction st st' :
  bfs_iteration adj direction st = Some st' ↔
  ∃ current_id rest,
    queue st = current_id :: rest
    ∧ st' = foldl (visit_neighbor direction current_id)
              (BfsState (edges st) (visited_edges st) (visited_nodes st) rest)
              (neighbors_of adj current_id).
Proof.
  unfold bfs_iteration. destruct (queue st) as [|c rest]; split.
  - done.
  - by intros (? & ? & ? & ?).
  - intros [= <-]. eauto.
  - intros (? & ? & [= <- <-] & ->). done.
Qed.

Lemma bfs_iteration_None adj direction st :
  bfs_iteration adj direction st = None ↔ queue st = [].
Proof. unfold bfs_iteration. by destruct (queue st). Qed.

Lemma visit_neighbor_measure U direction current_id st nb :
  nb ∈ U →
  bfs_measure U (visit_neighbor direction current_id st nb) = bfs_measure U st.
Proof.
  intros HU. unfold bfs_measure.
  rewrite visit_neighbor_nodes, visit_neighbor_queue.
  case_decide as Hnb.
  - rewrite app_nil_r. by replace ({[nb]} ∪ visited_nodes st) with (visited_nodes st)
      by set_solver.
  - rewrite length_app. simpl.
    replace (U ∖ visited_nodes st)
      with ({[nb]} ∪ (U ∖ ({[nb]} ∪ visited_nodes st))).
    + rewrite (size_union {[nb]}), size_singleton; [lia|set_solver].
    + apply set_eq. intros x. destruct (decide (x = nb)); set_solver.
Qed.

Lemma visit_all_measure U direction current_id ns st :
  (∀ x, x ∈ ns → x ∈ U) →
  bfs_measure U (foldl (visit_neighbor direction current_id) st ns)
    = bfs_measure U st.
Proof.
  revert st. induction ns as [|nb ns IH]; intros st HU; simpl; [done|].
  rewrite IH by set_solver. apply visit_neighbor_measure. set_solver.
Qed.

Lemma bfs_iteration_measure U adj direction st st' :
  adj_nodes adj ⊆ U →
  bfs_iteration adj direction st = Some st' →
  bfs_measure U st = S (bfs_measure U st').
Proof.
  intros HU (c & rest & Hq & ->)%bfs_iteration_Some.
  rewrite visit_all_measure.
  - unfold bfs_measure. simpl. rewrite Hq. simpl. lia.
  - intros x Hx. by apply HU, neighbors_in_adj_nodes with c.
Qed.

(** With as much fuel as the measure, the loop ends because its queue is
    empty. *)
Lemma bfs_while_enough U adj direction fuel st :
  adj_nodes adj ⊆ U →
  bfs_measure U st ≤ fuel →
  ∃ st', bfs_while fuel adj direction st = Ok st' ∧ queue st' = [].
Proof.
  intros HU. revert st. induction fuel as [|fuel IH]; intros st Hm.
  - destruct (bfs_iteration adj direction st) as [st'|] eqn:Hit.
    + apply (bfs_iteration_measure U) in Hit; [lia|done].
    + exists st. simpl. rewrite Hit. by apply bfs_iteration_None in Hit.
  - simpl. destruct (bfs_iteration adj direction st) as [st'|] eqn:Hit.
    + apply IH. apply (bfs_iteration_measure U) in Hit; [lia|done].
    + exists st. by apply bfs_iteration_None in Hit.
Qed.

Lemma bfs_init_measure U start_id :
  start_id ∈ U → bfs_measure U (bfs_init start_id) = size U.
Proof.
  intros HU. unfold bfs_measure. simpl.
  replace U with ({[start_id]} ∪ (U ∖ {[start_id]})) at 2.
  - rewrite (size_union {[start_id]}), size_singleton; [lia|set_solver].
  - apply set_eq. intros x. destruct (decide (x = start_id)); set_solver.
Qed.

(** A property kept by every pass holds when the loop ends. *)
Lemma bfs_while_invariant (P : bfs_state → Prop) adj direction :
  (∀ st st', P st → bfs_iteration adj direction st = Some st' → P st') →
  ∀ fuel st st',
    P st → bfs_while fuel adj direction st = Ok st' → P st' ∧ queue st' = [].
Proof.
  intros Hstep. induction fuel as [|fuel IH]; intros st st' HP; simpl;
    destruct (bfs_iteration adj direction st) as [st1|] eqn:Hit; try done.
  - intros [= <-]. by apply bfs_iteration_None in Hit.
  - intros Hw. eapply IH; [|done]. eauto.
  - intros [= <-]. by apply bfs_iteration_None in Hit.
Qed.

(** The traversal ends within its budget. *)
Lemma bfs_while_budget start_id adj direction :
  ∃ st, bfs_while (bfs_budget start_id adj) adj direction (bfs_init start_id) = Ok st
        ∧ queue st = [].
Proof.
  apply (bfs_while_enough ({[start_id]} ∪ adj_nodes adj)); [set_solver|].
  rewrite bfs_init_measure by set_solver. done.
Qed.

(** ** What the traversal computes *)

Section bfs_correct.
Context (adj : adjacency) (direction start_id : string).

Lemma bfs_inv_init : bfs_inv adj direction start_id (bfs_init start_id).
Proof.
  split; simpl.
  - set_solver.
  - intros x ->%elem_of_singleton. constructor.
  - set_solver.
  - set_solver.
  - constructor.
  - set_solver.
  - set_solver.
Qed.

Lemma bfs_inv_step st st' :
  bfs_inv adj direction start_id st →
  bfs_iteration adj direction st = Some st' →
  bfs_inv adj direction start_id st'.
Proof.
  intros [Hs Hr Hq Hes Hnd Hsd Hcl] (c & rest & Hqe & ->)%bfs_iteration_Some.
  set (st0 := BfsState (edges st) (visited_edges st) (visited_nodes st) rest).
  set (ns := neighbors_of adj c).
  assert (Hc : c ∈ visited_nodes st) by (apply Hq; rewrite Hqe; left).
  destruct (visit_all_queue direction c ns st0) as (newq & Hq' & Hndq & Hinq).
  destruct (visit_all_edges direction c ns st0) as (newe & He' & Hnde & Hine).
  pose proof (visit_all_nodes direction c ns st0) as Hn'.
  pose proof (visit_all_vedges direction c ns st0) as Hv'.
  simpl in *.
  assert (Hmem : ∀ e, e ∈ edges st ++ newe
                      ↔ e ∈ visited_edges st ∨ e ∈ oriented direction c <$> ns).
  { intros e. rewrite elem_of_app, Hine, Hes.
    destruct (decide (e ∈ visited_edges st)); tauto. }
  split.
  - rewrite Hn'. set_solver.
  - intros x. rewrite Hn', elem_of_union, elem_of_list_to_set.
    intros [Hx|Hx]; [by apply Hr|]. eapply reach_step; [apply Hr, Hc|done].
  - intros x. rewrite Hq', Hn', elem_of_app, Hinq. intros [Hx|[Hx _]].
    + apply elem_of_union_l, Hq. rewrite Hqe. by right.
    + apply elem_of_union_r. by apply elem_of_list_to_set.
  - intros e. rewrite He', Hv', Hmem. set_solver.
  - rewrite He'. apply NoDup_app. split_and!; [done| |done].
    intros e He. rewrite Hine. rewrite Hes in He. tauto.
  - intros e. rewrite He', elem_of_app, Hine.
    intros [He|[He _]]; [by apply Hsd|].
    apply list_elem_of_fmap in He as (v & -> & Hv).
    exists c, v. split_and!; [done|by apply Hr|done].
  - intros u. rewrite Hn', Hq', He'. intros Hu Hnq v Hv.
    rewrite elem_of_app in Hnq. rewrite Hmem, elem_of_union.
    destruct (decide (u = c)) as [->|Hne].
    + split.
      * right. by apply elem_of_list_to_set.
      * right. apply list_elem_of_fmap. eauto.
    + assert (Hu' : u ∈ visited_nodes st).
      { apply elem_of_union in Hu as [Hu|Hu]; [done|].
        apply elem_of_list_to_set in Hu.
        destruct (decide (u ∈ visited_nodes st)); [done|].
        exfalso. apply Hnq. right. by apply Hinq. }
      assert (Hnq' : u ∉ queue st).
      { rewrite Hqe. intros [->|?]%elem_of_cons; [done|]. apply Hnq. by left. }
      destruct (Hcl u Hu' Hnq' v Hv) as [H1 H2]. split; [by left|].
      left. by apply Hes.
Qed.

(** Soundness and completeness of a finished traversal. *)
Lemma bfs_inv_final st e :
  bfs_inv adj direction start_id st → queue st = [] →
  e ∈ edges st ↔ closure_edge adj direction start_id e.
Proof.
  intros [Hs Hr Hq Hes Hnd Hsd Hcl] Hqe. split; [apply Hsd|].
  intros (u & v & -> & Hu & Hv).
  assert (Hvis : ∀ x, reach adj start_id x → x ∈ visited_nodes st).
  { induction 1 as [|a b _ IH Hb]; [done|].
    apply (Hcl a IH); [rewrite Hqe; set_solver|done]. }
  apply (Hcl u); [by apply Hvis|rewrite Hqe; set_solver|done].
Qed.
End bfs_correct.

(** [collect_transitive_edges] returns, and what it returns: each pair of
    the closure once. *)
Lemma collect_transitive_edges_spec start_id adj direction :
  ∃ es, collect_transitive_edges start_id adj direction = Ok es
        ∧ NoDup es
        ∧ ∀ e, e ∈ es ↔ closure_edge adj direction start_id e.
Proof.
  destruct (bfs_while_budget start_id adj direction) as (st & Hw & Hq).
  exists (edges st). unfold collect_transitive_edges. rewrite Hw. simpl.
  split; [done|].
  destruct (bfs_while_invariant (bfs_inv adj direction start_id) adj direction
              (bfs_inv_step adj direction start_id) _ _ _
              (bfs_inv_init adj direction start_id) Hw) as [Hinv _].
  split; [apply Hinv|]. intros e. by apply bfs_inv_final.
Qed.

(** ** The validator *)

Lemma check_node_seen all_ids i n seen_ids :
  (check_node all_ids i n seen_ids).1 = list_to_set (omap n_id [n]) ∪ seen_ids.
Proof.
  unfold check_node. simpl. destruct (n_id n); simpl; set_solver.
Qed.

Lemma validate_loop_app all_ids i l1 l2 seen_ids :
  validate_loop all_ids i (l1 ++ l2) seen_ids =
    validate_loop all_ids i l1 seen_ids
    ++ validate_loop all_ids (i + length l1) l2
         (list_to_set (omap n_id l1) ∪ seen_ids).
Proof.
  revert i seen_ids. induction l1 as [|n l1 IH]; intros i seen_ids; simpl.
  - rewrite Nat.add_0_r. f_equal. set_solver.
  - pose proof (check_node_seen all_ids i n seen_ids) as Hs.
    destruct (check_node all_ids i n seen_ids) as [seen' errs]. simpl in Hs.
    rewrite IH, <- app_assoc. do 2 f_equal.
    replace (S i + length l1) with (i + S (length l1)) by lia. f_equal.
    rewrite Hs. simpl. destruct (n_id n); simpl; set_solver.
Qed.

(** The errors of the node at position [length l1], between those of the
    nodes before it and those of the nodes after it. *)
Lemma validate_nodes_split l1 n l2 :
  let all_ids := all_ids_of (l1 ++ n :: l2) in
  let seen_ids := list_to_set (omap n_id l1) in
  validate_nodes (l1 ++ n :: l2) =
    validate_loop all_ids 0 l1 ∅
    ++ (check_node all_ids (length l1) n seen_ids).2
    ++ validate_loop all_ids (S (length l1)) l2
         (check_node all_ids (length l1) n seen_ids).1.
Proof.
  intros all_ids seen_ids. unfold validate_nodes. fold all_ids.
  rewrite validate_loop_app. simpl. f_equal.
  replace (list_to_set (omap n_id l1) ∪ ∅) with seen_ids by set_solver.
  by destruct (check_node all_ids (length l1) n seen_ids).
Qed.

Lemma validate_nodes_at nodes i n e :
  nodes !! i = Some n →
  e ∈ (check_node (all_ids_of nodes) i n (list_to_set (omap n_id (take i nodes)))).2 →
  e ∈ validate_nodes nodes.
Proof.
  intros Hi He.
  pose proof (take_drop_middle nodes i n Hi) as Hsplit.
  pose proof (validate_nodes_split (take i nodes) n (drop (S i) nodes)) as Hv.
  simpl in Hv. rewrite Hsplit in Hv. rewrite Hv.
  rewrite length_take_le in * by (apply lookup_lt_Some in Hi; lia).
  rewrite !elem_of_app. by right; left.
Qed.

Lemma elem_of_all_ids_of nodes x :
  x ∈ all_ids_of nodes ↔ ∃ n, n ∈ nodes ∧ n_id n = Some x.
Proof.
  unfold all_ids_of. rewrite elem_of_list_to_set, list_elem_of_omap. naive_solver.
Qed.

Lemma missing_fields_spec i n e :
  e ∈ missing_fields i n ↔
  ∃ f, e = MissingField i f ∧ f ∈ required_fields ∧ has_field f n = false.
Proof.
  unfold missing_fields. rewrite list_elem_of_fmap.
  setoid_rewrite list_elem_of_filter. naive_solver.
Qed.

Lemma validate_id_format_spec node_id :
  validate_id_format node_id = false ↔ length (split "-"%char node_id) < 3.
Proof.
  unfold validate_id_format. rewrite bool_decide_eq_false. lia.
Qed.

Lemma reindex_missing_fields i n :
  reindex <$> missing_fields i n = missing_fields (S i) n.
Proof. unfold missing_fields. by rewrite <- list_fmap_compose. Qed.

Lemma reindex_check_edge all_ids node_id es :
  reindex <$> (es ≫= check_edge all_ids node_id) = es ≫= check_edge all_ids node_id.
Proof.
  induction es as [|e es IH]; [done|]. rewrite bind_cons, fmap_app, IH. f_equal.
  unfold check_edge. destruct (e_target e); [case_decide|]; done.
Qed.

Lemma reindex_id_checks all_ids seen_ids node_id n :
  reindex <$> id_checks all_ids seen_ids node_id n
    = id_checks all_ids seen_ids node_id n.
Proof.
  unfold id_checks. rewrite !fmap_app, reindex_check_edge.
  f_equal; [by case_decide|]. f_equal; [by destruct (validate_id_format node_id)|].
  f_equal. destruct (n_type n); [case_decide|]; done.
Qed.

Lemma validate_loop_S all_ids i l seen_ids :
  validate_loop all_ids (S i) l seen_ids
    = reindex <$> validate_loop all_ids i l seen_ids.
Proof.
  revert i seen_ids. induction l as [|n l IH]; intros i seen_ids; [done|].
  simpl. unfold check_node. destruct (n_id n) as [x|].
  - rewrite !fmap_app, reindex_missing_fields, reindex_id_checks, IH.
    by rewrite <- app_assoc.
  - by rewrite fmap_app, reindex_missing_fields, IH.
Qed.

(** C6. [validate_nodes] reports every violation of every node, not only
    the first: each missing required field, each repeated id, each id with
    fewer than 3 hyphen-separated segments, each type outside the
    enumeration and each edge target that no node carries is in the
    returned list.  A node without id adds its missing-field messages and
    nothing else: the list is the one obtained without that node, with its
    missing-field messages inserted and the positions after it shifted. *)
Theorem validate_nodes_complete (nodes : list node) :
  (∀ i n f, nodes !! i = Some n → f ∈ required_fields →
            has_field f n = false →
            MissingField i f ∈ validate_nodes nodes)
  ∧ (∀ i j n1 n2 x, i < j → nodes !! i = Some n1 → nodes !! j = Some n2 →
            n_id n1 = Some x → n_id n2 = Some x →
            DuplicateId x ∈ validate_nodes nodes)
  ∧ (∀ n x, n ∈ nodes → n_id n = Some x →
            length (split "-"%char x) < 3 →
            BadIdFormat x ∈ validate_nodes nodes)
  ∧ (∀ n x t, n ∈ nodes → n_id n = Some x → n_type n = Some t →
            t ∉ valid_types →
            InvalidType x t ∈ validate_nodes nodes)
  ∧ (∀ n x e t, n ∈ nodes → n_id n = Some x → e ∈ get_edges n →
            e_target e = Some t → (∀ m, m ∈ nodes → n_id m ≠ Some t) →
            DanglingTarget x t ∈ validate_nodes nodes)
  ∧ (∀ l1 n l2, nodes = l1 ++ n :: l2 → n_id n = None →
       MissingField (length l1) "id" ∈ missing_fields (length l1) n
       ∧ ∃ E1 E2, validate_nodes (l1 ++ l2) = E1 ++ E2
                  ∧ validate_nodes nodes =
                      E1 ++ missing_fields (length l1) n ++ (reindex <$> E2)).
Proof.
  split_and!.
  - intros i n f Hi Hf Hh. eapply validate_nodes_at; [done|].
    unfold check_node. destruct (n_id n); simpl; rewrite ?elem_of_app;
      [left|]; apply missing_fields_spec; eauto.
  - intros i j n1 n2 x Hij Hi Hj H1 H2. eapply validate_nodes_at; [exact Hj|].
    unfold check_node. rewrite H2. simpl. unfold id_checks.
    rewrite !elem_of_app. right; left. rewrite decide_True; [set_solver|].
    apply elem_of_list_to_set, list_elem_of_omap. exists n1. split; [|done].
    apply list_elem_of_lookup. exists i. rewrite lookup_take_lt by done. done.
  - intros n x [i Hi]%list_elem_of_lookup Hx Hlen.
    eapply validate_nodes_at; [exact Hi|].
    unfold check_node. rewrite Hx. simpl. unfold id_checks.
    rewrite !elem_of_app. right; right; left.
    apply validate_id_format_spec in Hlen. rewrite Hlen. set_solver.
  - intros n x t [i Hi]%list_elem_of_lookup Hx Ht Hnv.
    eapply validate_nodes_at; [exact Hi|].
    unfold check_node. rewrite Hx. simpl. unfold id_checks.
    rewrite !elem_of_app. do 3 right. left.
    rewrite Ht, decide_False by done. set_solver.
  - intros n x e t [i Hi]%list_elem_of_lookup Hx He Ht Hno.
    eapply validate_nodes_at; [exact Hi|].
    unfold check_node. rewrite Hx. simpl. unfold id_checks.
    rewrite !elem_of_app. do 4 right.
    apply list_elem_of_bind. exists e. split; [|done].
    unfold check_edge. rewrite Ht, decide_False; [set_solver|].
    rewrite elem_of_all_ids_of. intros (m & Hm & Hmt). by apply (Hno m).
  - intros l1 n l2 -> Hn. split.
    + apply missing_fields_spec. exists "id". split_and!; [done|set_solver|].
      unfold has_field. simpl. rewrite Hn. done.
    + assert (Hall : all_ids_of (l1 ++ n :: l2) = all_ids_of (l1 ++ l2)).
      { unfold all_ids_of. rewrite !omap_app. simpl. by rewrite Hn. }
      exists (validate_loop (all_ids_of (l1 ++ l2)) 0 l1 ∅),
             (validate_loop (all_ids_of (l1 ++ l2)) (length l1) l2
                (list_to_set (omap n_id l1))).
      split.
      * unfold validate_nodes. rewrite validate_loop_app. simpl.
        do 2 f_equal. set_solver.
      * rewrite validate_nodes_split. simpl. rewrite Hall.
        unfold check_node. rewrite Hn. simpl.
        by rewrite validate_loop_S.
Qed.

(** ** Validated node lists *)

Lemma validate_nil_at nodes i n :
  validate_nodes nodes = [] → nodes !! i = Some n →
  (check_node (all_ids_of nodes) i n (list_to_set (omap n_id (take i nodes)))).2 = [].
Proof.
  intros Hv Hi.
  destruct (check_node _ i n _).2 as [|e errs] eqn:He; [done|].
  assert (e ∈ validate_nodes nodes) as Hin.
  { eapply validate_nodes_at; [done|]. rewrite He. left. }
  rewrite Hv in Hin. by apply not_elem_of_nil in Hin.
Qed.

Lemma validate_nil_fields nodes n f :
  validate_nodes nodes = [] → n ∈ nodes → f ∈ required_fields →
  has_field f n = true.
Proof.
  intros Hv [i Hi]%list_elem_of_lookup Hf.
  pose proof (validate_nil_at nodes i n Hv Hi) as He.
  destruct (has_field f n) eqn:Hh; [done|].
  assert (MissingField i f ∈ missing_fields i n) as Hm
    by (apply missing_fields_spec; eauto).
  unfold check_node in He.
  destruct (n_id n); simpl in He; [apply app_eq_nil in He as [He _]|];
    rewrite He in Hm; by apply not_elem_of_nil in Hm.
Qed.

Lemma validate_nil_id nodes n :
  validate_nodes nodes = [] → n ∈ nodes → is_Some (n_id n).
Proof.
  intros Hv Hn.
  pose proof (validate_nil_fields nodes n "id" Hv Hn) as Hf.
  unfold has_field in Hf. simpl in Hf.
  eapply bool_decide_eq_true_1. apply Hf. set_solver.
Qed.

Lemma validate_nil_edge nodes n e :
  validate_nodes nodes = [] → n ∈ nodes → e ∈ get_edges n →
  ∃ t, e_target e = Some t ∧ t ∈ all_ids_of nodes.
Proof.
  intros Hv Hn He. destruct (validate_nil_id nodes n Hv Hn) as [x Hx].
  apply list_elem_of_lookup in Hn as [i Hi].
  pose proof (validate_nil_at nodes i n Hv Hi) as Hc.
  unfold check_node in Hc. rewrite Hx in Hc. simpl in Hc. unfold id_checks in Hc.
  repeat (apply app_eq_nil in Hc as [_ Hc]).
  assert (check_edge (all_ids_of nodes) x e = []) as Hce.
  { destruct (check_edge (all_ids_of nodes) x e) as [|err l] eqn:Hce; [done|].
    assert (err ∈ get_edges n ≫= check_edge (all_ids_of nodes) x) as Hin.
    { apply list_elem_of_bind. exists e. rewrite Hce. split; [left|done]. }
    rewrite Hc in Hin. by apply not_elem_of_nil in Hin. }
  unfold check_edge in Hce. destruct (e_target e) as [t|]; [|done].
  exists t. split; [done|]. by destruct (decide (t ∈ all_ids_of nodes)).
Qed.

Lemma validate_nil_well_keyed nodes :
  validate_nodes nodes = [] → well_keyed nodes.
Proof.
  intros Hv n Hn. split; [by eapply validate_nil_id|].
  intros e He. destruct (validate_nil_edge nodes n e Hv Hn He) as (t & -> & _).
  eauto.
Qed.

Lemma validate_loop_nil_NoDup all_ids i l seen_ids :
  validate_loop all_ids i l seen_ids = [] →
  NoDup (omap n_id l) ∧ ∀ x, x ∈ omap n_id l → x ∉ seen_ids.
Proof.
  revert i seen_ids. induction l as [|n l IH]; intros i seen_ids; simpl.
  - intros _. split; [constructor|set_solver].
  - unfold check_node. destruct (n_id n) as [x|] eqn:Hx; simpl.
    + intros [[_ Hc]%app_eq_nil Hl]%app_eq_nil.
      apply IH in Hl as [Hnd Hns]. unfold id_checks in Hc.
      apply app_eq_nil in Hc as [Hdup _].
      destruct (decide (x ∈ seen_ids)); [done|].
      split.
      * constructor; [|done]. intros Hin. apply Hns in Hin. set_solver.
      * intros y [->|Hy]%elem_of_cons; [done|]. apply Hns in Hy. set_solver.
    + intros [_ Hl]%app_eq_nil. by apply IH in Hl.
Qed.

Lemma validate_nil_NoDup nodes :
  validate_nodes nodes = [] → NoDup (omap n_id nodes).
Proof. intros Hv. by apply validate_loop_nil_NoDup in Hv as [? _]. Qed.

(** ** The graph builder *)

Lemma foldM_cons {A B} (f : B → A → result B) b a l :
  foldM f b (a :: l) = f b a ≫= λ b', foldM f b' l.
Proof. done. Qed.

Lemma neighbors_of_dd_append k v d x :
  neighbors_of (dd_append k v d) x =
    neighbors_of d x ++ (if decide (x = k) then [v] else []).
Proof.
  unfold neighbors_of, dd_append. case_decide as Hx.
  - subst. by rewrite lookup_insert_eq.
  - rewrite lookup_insert_ne by done. by rewrite app_nil_r.
Qed.

Lemma neighbors_of_dd_ensure k d x :
  neighbors_of (dd_ensure k d) x = neighbors_of d x.
Proof.
  unfold neighbors_of, dd_ensure. destruct (d !! k) eqn:Hk; [done|].
  destruct (decide (x = k)) as [->|Hx].
  - by rewrite lookup_insert_eq, Hk.
  - by rewrite lookup_insert_ne.
Qed.

(** The loop over one node's edges. *)
Lemma gs_add_edges_spec u es g :
  (∀ e, e ∈ es → is_Some (e_target e)) →
  ∃ g', foldM (gs_add_edge u) g es = Ok g'
    ∧ (∀ x v, v ∈ neighbors_of g'.1 x
              ↔ v ∈ neighbors_of g.1 x ∨ (x = u ∧ v ∈ omap e_target es))
    ∧ (∀ x w, w ∈ neighbors_of g'.2 x
              ↔ w ∈ neighbors_of g.2 x ∨ (w = u ∧ x ∈ omap e_target es)).
Proof.
  revert g. induction es as [|e es IH]; intros g Hes.
  - exists g. simpl. split; [done|]. set_solver.
  - destruct (Hes e) as [t Ht]; [left|].
    destruct (IH (dd_append u t g.1, dd_append t u g.2)) as (g' & Hg' & H1 & H2).
    { intros e' He'. apply Hes. by right. }
    assert (He : gs_add_edge u g e = Ok (dd_append u t g.1, dd_append t u g.2))
      by (unfold gs_add_edge; by rewrite Ht).
    exists g'. split.
    + rewrite foldM_cons, He. exact Hg'.
    + simpl in H1, H2. simpl. rewrite Ht. split.
      * intros x v. rewrite H1, neighbors_of_dd_append, elem_of_app, elem_of_cons.
        case_decide; set_solver.
      * intros x w. rewrite H2, neighbors_of_dd_append, elem_of_app, elem_of_cons.
        case_decide; set_solver.
Qed.

Lemma gs_add_nodes_spec nodes g :
  well_keyed nodes →
  ∃ g', foldM gs_add_node g nodes = Ok g'
    ∧ (∀ u v, v ∈ neighbors_of g'.1 u
              ↔ v ∈ neighbors_of g.1 u ∨ declares nodes u v)
    ∧ (∀ u v, u ∈ neighbors_of g'.2 v
              ↔ u ∈ neighbors_of g.2 v ∨ declares nodes u v).
Proof.
  revert g. induction nodes as [|n nodes IH]; intros g Hwk.
  - exists g. simpl. split; [done|]. unfold declares. set_solver.
  - destruct (Hwk n) as [[a Ha] Hes]; [left|].
    destruct (gs_add_edges_spec a (get_edges n)
                (dd_ensure a g.1, dd_ensure a g.2) Hes) as (g1 & Hg1 & H1 & H2).
    destruct (IH g1) as (g' & Hg' & H3 & H4).
    { intros m Hm. apply Hwk. by right. }
    assert (Hn : gs_add_node g n = Ok g1)
      by (unfold gs_add_node; by rewrite Ha).
    exists g'. split.
    + rewrite foldM_cons, Hn. exact Hg'.
    + simpl in H1, H2. setoid_rewrite neighbors_of_dd_ensure in H1.
      setoid_rewrite neighbors_of_dd_ensure in H2.
      assert (Hd : ∀ u v, declares (n :: nodes) u v
                          ↔ (u = a ∧ v ∈ targets_of n) ∨ declares nodes u v).
      { intros u v. unfold declares. split.
        - intros (m & [->|Hm]%elem_of_cons & Hid & Hv).
          + left. split; [congruence|done].
          + right. eauto.
        - intros [[-> Hv]|(m & Hm & Hid & Hv)].
          + exists n. split_and!; [left|done|done].
          + exists m. split_and!; [by right|done|done]. }
      split.
      * intros u v. rewrite H3, H1, Hd. unfold targets_of. tauto.
      * intros u v. rewrite H4, H2, Hd. unfold targets_of. tauto.
Qed.

(** On a list with all its keys the builder returns, [outgoing] holds the
    declared edges by source and [incoming] holds them by target. *)
Lemma build_graph_structures_spec nodes :
  well_keyed nodes →
  ∃ outgoing incoming,
    build_graph_structures nodes = Ok (outgoing, incoming)
    ∧ (∀ u v, v ∈ neighbors_of outgoing u ↔ declares nodes u v)
    ∧ (∀ u v, u ∈ neighbors_of incoming v ↔ declares nodes u v).
Proof.
  intros Hwk.
  destruct (gs_add_nodes_spec nodes (∅, ∅) Hwk) as ([out inc] & Hg & H1 & H2).
  exists out, inc. split; [done|]. simpl in *.
  split; intros u v; [rewrite H1|rewrite H2];
    unfold neighbors_of; rewrite lookup_empty; set_solver.
Qed.

Lemma reach_trans adj a b c :
  reach adj a b → reach adj b c → reach adj a c.
Proof.
  intros Hab. induction 1 as [|u v _ IH Hv]; [done|].
  by eapply reach_step.
Qed.

(** [reach] is the reflexive-transitive closure of the neighbour relation. *)
Lemma reach_rtc adj (R : relation string) start_id x :
  (∀ a b, b ∈ neighbors_of adj a ↔ R a b) →
  reach adj start_id x ↔ rtc R start_id x.
Proof.
  intros HR. split.
  - induction 1 as [|u v _ IH Hv]; [done|].
    eapply rtc_r; [done|]. by apply HR.
  - induction 1 as [|a b c Hab _ IH]; [constructor|].
    eapply reach_trans; [|exact IH].
    eapply reach_step; [constructor|]. by apply HR.
Qed.

(** ** The closure engine on a validated list *)

Lemma oriented_downstream c n : oriented "downstream" c n = (c, n).
Proof. reflexivity. Qed.

Lemma oriented_upstream c n : oriented "upstream" c n = (n, c).
Proof. reflexivity. Qed.

(** C1. On a validated node list and for an id [N] of it, the builder
    returns [outgoing] and [incoming], both traversals from [N] return, and
    - the downstream result holds exactly the declared edges [(u, v)] whose
      source [u] is reached from [N] along [outgoing] ([u = N] included);
    - the upstream result holds exactly the declared edges [(u, v)] whose
      target [v] is reached from [N] along [incoming];
    where reaching along [outgoing] is following declared edges forwards and
    reaching along [incoming] is following them backwards. *)
Theorem closure_is_reachable_edges (nodes : list node) (N : string) :
  validate_nodes nodes = [] → N ∈ all_ids_of nodes →
  ∃ outgoing incoming down up,
    build_graph_structures nodes = Ok (outgoing, incoming)
    ∧ collect_transitive_edges N outgoing "downstream" = Ok down
    ∧ collect_transitive_edges N incoming "upstream" = Ok up
    ∧ (∀ u v, (u, v) ∈ down ↔ reach outgoing N u ∧ v ∈ neighbors_of outgoing u)
    ∧ (∀ u v, (u, v) ∈ up ↔ reach incoming N v ∧ u ∈ neighbors_of incoming v)
    ∧ (∀ u v, v ∈ neighbors_of outgoing u ↔ declares nodes u v)
    ∧ (∀ u v, u ∈ neighbors_of incoming v ↔ declares nodes u v)
    ∧ (∀ x, reach outgoing N x ↔ rtc (declares nodes) N x)
    ∧ (∀ x, reach incoming N x ↔ rtc (flip (declares nodes)) N x).
Proof.
  intros Hv _.
  destruct (build_graph_structures_spec nodes (validate_nil_well_keyed _ Hv))
    as (out & inc & Hb & Hout & Hinc).
  destruct (collect_transitive_edges_spec N out "downstream") as (down & Hd & _ & Hdm).
  destruct (collect_transitive_edges_spec N inc "upstream") as (up & Hu & _ & Hum).
  exists out, inc, down, up. split_and!; try done.
  - intros u v. rewrite Hdm. unfold closure_edge. split.
    + intros (a & b & [= -> ->] & Ha & Hb'). done.
    + intros [Ha Hb']. exists u, v. done.
  - intros u v. rewrite Hum. unfold closure_edge. split.
    + intros (a & b & [= -> ->] & Ha & Hb'). done.
    + intros [Ha Hb']. exists v, u. done.
  - intros x. by apply reach_rtc.
  - intros x. apply reach_rtc. intros a b. unfold flip. apply Hinc.
Qed.

(** Whatever the queue holds and in whatever order, a pass of the loop
    records only oriented pairs of a node and one of its neighbours. *)
Lemma bfs_while_records adj direction fuel st st' :
  bfs_while fuel adj direction st = Ok st' →
  ∀ e, e ∈ edges st' →
    e ∈ edges st ∨ ∃ c n, n ∈ neighbors_of adj c ∧ e = oriented direction c n.
Proof.
  intros Hw.
  apply (bfs_while_invariant
           (λ s, ∀ e, e ∈ edges s →
                 e ∈ edges st ∨ ∃ c n, n ∈ neighbors_of adj c
                                      ∧ e = oriented direction c n)
           adj direction) with (st := st) (fuel := fuel); [|by left|done].
  intros s s' IH (c & rest & Hq & ->)%bfs_iteration_Some e.
  destruct (visit_all_edges direction c (neighbors_of adj c)
              (BfsState (edges s) (visited_edges s) (visited_nodes s) rest))
    as (new & -> & _ & Hin).
  simpl. rewrite elem_of_app, Hin. intros [He|[He _]]; [by apply IH|].
  right. apply list_elem_of_fmap in He as (n & -> & Hn). eauto.
Qed.

(** C2. Every pair [collect_transitive_edges] records is oriented in the
    forward sense of the edge: [(current, neighbor)] when the direction is
    "downstream", [(neighbor, current)] when it is "upstream", for a node
    [current] and a [neighbor] from its adjacency entry.  This holds from
    any state of the loop, so for any order in which nodes are dequeued. *)
Theorem recorded_pairs_are_forward (adj : adjacency) (direction : string) :
  (∀ c n, oriented "downstream" c n = (c, n))
  ∧ (∀ c n, oriented "upstream" c n = (n, c))
  ∧ (∀ fuel st st', bfs_while fuel adj direction st = Ok st' →
       ∀ e, e ∈ edges st' →
         e ∈ edges st
         ∨ ∃ current neighbor, neighbor ∈ neighbors_of adj current
                               ∧ e = oriented direction current neighbor)
  ∧ (∀ start_id es, collect_transitive_edges start_id adj direction = Ok es →
       ∀ e, e ∈ es →
         ∃ current neighbor, reach adj start_id current
                             ∧ neighbor ∈ neighbors_of adj current
                             ∧ e = oriented direction current neighbor).
Proof.
  split_and!; [done|done|apply bfs_while_records|].
  intros start_id es Hc e He.
  destruct (collect_transitive_edges_spec start_id adj direction)
    as (es' & Hc' & _ & Hm).
  rewrite Hc in Hc'. injection Hc' as <-.
  apply Hm in He as (c & n & -> & Hr & Hn). eauto.
Qed.

Lemma NoDup_singleton_eq {A} (l : list A) (a : A) :
  NoDup l → (∀ x, x ∈ l ↔ x = a) → l = [a].
Proof.
  intros Hnd Hm. destruct l as [|x l].
  - exfalso. eapply not_elem_of_nil. apply Hm. reflexivity.
  - assert (x = a) as -> by (apply Hm; left).
    destruct l as [|y l]; [done|].
    assert (y = a) as -> by (apply Hm; right; left).
    apply NoDup_cons in Hnd as [Hnd _]. exfalso. apply Hnd. left.
Qed.

(** C5. A node whose adjacency entry holds only itself, once or several
    times, has exactly the one pair [(N, N)] as its downstream closure. *)
Theorem self_loop_closure (adj : adjacency) (N : string) (k : nat) :
  adj !! N = Some (replicate (S k) N) →
  collect_transitive_edges N adj "downstream" = Ok [(N, N)].
Proof.
  intros HN.
  destruct (collect_transitive_edges_spec N adj "downstream") as (es & -> & Hnd & Hm).
  f_equal. apply NoDup_singleton_eq; [done|].
  assert (Hnb : ∀ v, v ∈ neighbors_of adj N ↔ v = N).
  { intros v. unfold neighbors_of. rewrite HN. simpl.
    rewrite elem_of_cons, elem_of_replicate. naive_solver. }
  assert (Hr : ∀ u, reach adj N u → u = N).
  { induction 1 as [|u v _ -> Hv]; [done|]. by apply Hnb. }
  intros e. rewrite Hm. unfold closure_edge. split.
  - intros (u & v & -> & Hu & Hv). apply Hr in Hu as ->.
    apply Hnb in Hv as ->. done.
  - intros ->. exists N, N. split_and!; [done|constructor|by apply Hnb].
Qed.

(** ** Termination and the visited set *)

Lemma bfs_trace_invariant (P : bfs_state → Prop) adj direction :
  (∀ st st', P st → bfs_iteration adj direction st = Some st' → P st') →
  ∀ fuel st, P st → ∀ s, s ∈ bfs_trace fuel adj direction st → P s.
Proof.
  intros Hstep. induction fuel as [|fuel IH]; intros st HP s; simpl;
    destruct (bfs_iteration adj direction st) as [st'|] eqn:Hit;
    rewrite elem_of_cons; intros [->|Hs]; try done;
    try (by apply not_elem_of_nil in Hs).
  eapply IH; [|done]. eauto.
Qed.

Lemma bfs_iteration_visited adj direction st st' :
  bfs_iteration adj direction st = Some st' →
  ∃ current_id new,
    visited_nodes st' = visited_nodes st ∪ list_to_set (neighbors_of adj current_id)
    ∧ appended st st' = new
    ∧ NoDup new
    ∧ ∀ x, x ∈ new ↔ x ∈ neighbors_of adj current_id ∧ x ∉ visited_nodes st.
Proof.
  intros (c & rest & Hq & ->)%bfs_iteration_Some.
  set (st0 := BfsState (edges st) (visited_edges st) (visited_nodes st) rest).
  destruct (visit_all_queue direction c (neighbors_of adj c) st0)
    as (new & Hq' & Hnd & Hin).
  exists c, new. split_and!; [|unfold appended|done|done].
  - by rewrite visit_all_nodes.
  - rewrite Hq', Hq. simpl. rewrite Nat.sub_0_r.
    by rewrite drop_app_length.
Qed.

Lemma bfs_enqueued_fresh adj direction fuel st :
  NoDup (bfs_enqueued fuel adj direction st)
  ∧ ∀ x, x ∈ bfs_enqueued fuel adj direction st → x ∉ visited_nodes st.
Proof.
  revert st. induction fuel as [|fuel IH]; intros st; simpl;
    destruct (bfs_iteration adj direction st) as [st'|] eqn:Hit;
    try (split; [constructor|set_solver]);
    destruct (bfs_iteration_visited _ _ _ _ Hit) as (c & new & Hv & -> & Hnd & Hin).
  - rewrite app_nil_r. split; [done|]. intros x Hx. by apply Hin.
  - destruct (IH st') as [Hnd' Hfresh]. split.
    + apply NoDup_app. split_and!; [done| |done].
      intros x Hx Hx'. apply Hfresh in Hx'. apply Hx'. rewrite Hv.
      apply elem_of_union_r, elem_of_list_to_set. by apply Hin.
    + intros x [Hx|Hx]%elem_of_app; [by apply Hin|].
      apply Hfresh in Hx. rewrite Hv in Hx. set_solver.
Qed.

(** C3. For every adjacency structure, start node and direction, cycles
    and self-loops included:
    - the loop of [collect_transitive_edges] ends, with an empty queue,
      within as many passes as there are nodes in the structure and the
      start node together, and the function returns;
    - a pass never removes a node from the visited set;
    - no node is put on the queue twice;
    - at every head of the loop the visited nodes are no more than the
      nodes of the structure (keys and listed neighbours) and the start
      node together. *)
Theorem traversal_terminates (adj : adjacency) (start_id direction : string) :
  (∀ fuel, size ({[start_id]} ∪ adj_nodes adj) ≤ fuel →
     ∃ st, bfs_while fuel adj direction (bfs_init start_id) = Ok st
           ∧ queue st = [])
  ∧ (∃ es, collect_transitive_edges start_id adj direction = Ok es)
  ∧ (∀ st st', bfs_iteration adj direction st = Some st' →
       visited_nodes st ⊆ visited_nodes st')
  ∧ (∀ fuel, NoDup (start_id :: bfs_enqueued fuel adj direction (bfs_init start_id)))
  ∧ (∀ fuel st, st ∈ bfs_trace fuel adj direction (bfs_init start_id) →
       size (visited_nodes st) ≤ size ({[start_id]} ∪ adj_nodes adj)).
Proof.
  split_and!.
  - intros fuel Hfuel.
    apply (bfs_while_enough ({[start_id]} ∪ adj_nodes adj)); [set_solver|].
    by rewrite bfs_init_measure by set_solver.
  - destruct (collect_transitive_edges_spec start_id adj direction) as (es & ? & _).
    eauto.
  - intros st st' (c & new & -> & _)%bfs_iteration_visited. set_solver.
  - intros fuel.
    destruct (bfs_enqueued_fresh adj direction fuel (bfs_init start_id)) as [Hnd Hf].
    constructor; [|done]. intros Hin. apply Hf in Hin. simpl in Hin. set_solver.
  - intros fuel st Hst. apply subseteq_size.
    revert st Hst.
    apply (bfs_trace_invariant
             (λ s, visited_nodes s ⊆ {[start_id]} ∪ adj_nodes adj) adj direction).
    + intros s s' Hs (c & new & -> & _)%bfs_iteration_visited.
      apply union_subseteq. split; [done|].
      intros x Hx%elem_of_list_to_set. apply elem_of_union_r.
      by apply neighbors_in_adj_nodes with c.
    + simpl. set_solver.
Qed.

(** ** The reverse-reference index *)

Lemma mapM_ids nodes :
  (∀ n, n ∈ nodes → is_Some (n_id n)) →
  mapM (λ n, getitem "id" (n_id n)) nodes = Ok (omap n_id nodes).
Proof.
  induction nodes as [|n nodes IH]; intros Hid; [done|].
  destruct (Hid n) as [a Ha]; [left|]. simpl. rewrite Ha. simpl.
  rewrite IH by (intros m Hm; apply Hid; by right). done.
Qed.

Lemma rl_init_lookup ids (m : gmap string (gset string)) k :
  foldl (λ m i, <[i := ∅]> m) m ids !! k
    = if decide (k ∈ ids) then Some ∅ else m !! k.
Proof.
  revert m. induction ids as [|i ids IH]; intros m.
  - simpl foldl. case_decide as Hk; [by apply not_elem_of_nil in Hk|done].
  - simpl foldl. rewrite IH. repeat case_decide; try done.
    + exfalso. set_solver.
    + destruct (decide (k = i)) as [->|Hne]; [by rewrite lookup_insert_eq|].
      exfalso. set_solver.
    + rewrite lookup_insert_ne; [done|]. set_solver.
Qed.

(** The loop over one node's edges adds the node to the entry of each of
    its targets that is a key, and touches nothing else. *)
Lemma rl_add_edges_spec u es (rl : gmap string (gset string)) :
  (∀ e, e ∈ es → is_Some (e_target e)) →
  ∃ rl', foldM (rl_add_edge u) rl es = Ok rl'
    ∧ (∀ k, rl' !! k = None ↔ rl !! k = None)
    ∧ ∀ k a b, rl !! k = Some a → rl' !! k = Some b →
               ∀ w, w ∈ b ↔ w ∈ a ∨ (w = u ∧ k ∈ omap e_target es).
Proof.
  revert rl. induction es as [|e es IH]; intros rl Hes.
  - exists rl. split; [done|]. split; [done|].
    intros k a b Ha Hb w. rewrite Ha in Hb. injection Hb as <-.
    change (omap e_target []) with (@nil string). set_solver.
  - destruct (Hes e) as [t Ht]; [left|].
    set (rl1 := match rl !! t with
                | Some refs => <[t := {[u]} ∪ refs]> rl
                | None => rl
                end).
    assert (He : rl_add_edge u rl e = Ok rl1)
      by (unfold rl_add_edge; by rewrite Ht).
    assert (Hom : omap e_target (e :: es) = t :: omap e_target es)
      by (change (omap e_target (e :: es))
            with (match e_target e with
                  | Some y => y :: omap e_target es
                  | None => omap e_target es
                  end); by rewrite Ht).
    assert (H1 : ∀ k, k ≠ t → rl1 !! k = rl !! k).
    { intros k Hk. unfold rl1. destruct (rl !! t); [by rewrite lookup_insert_ne|done]. }
    assert (H2 : ∀ a, rl !! t = Some a → rl1 !! t = Some ({[u]} ∪ a)).
    { intros a Ha. unfold rl1. rewrite Ha. by rewrite lookup_insert_eq. }
    assert (H3 : rl !! t = None → rl1 !! t = None).
    { intros Ha. unfold rl1. by rewrite Ha. }
    destruct (IH rl1) as (rl' & Hf & Hnone & Hsome).
    { intros e' He'. apply Hes. by right. }
    exists rl'. split; [by rewrite foldM_cons, He|]. split.
    + intros k. rewrite Hnone. destruct (decide (k = t)) as [->|Hne].
      * destruct (rl !! t) as [a|] eqn:Ha; [by rewrite (H2 a)|by rewrite H3].
      * by rewrite H1.
    + intros k a b Ha Hb w. rewrite Hom, elem_of_cons.
      destruct (decide (k = t)) as [->|Hne].
      * rewrite (Hsome t _ b (H2 a Ha) Hb). set_solver.
      * rewrite <- (H1 k Hne) in Ha. rewrite (Hsome k a b Ha Hb). set_solver.
Qed.

Lemma declares_cons n nodes u w k :
  n_id n = Some u →
  declares (n :: nodes) w k ↔ (w = u ∧ k ∈ targets_of n) ∨ declares nodes w k.
Proof.
  intros Hu. unfold declares. split.
  - intros (m & [->|Hm]%elem_of_cons & Hid & Hv).
    + left. split; [congruence|done].
    + right. eauto.
  - intros [[-> Hv]|(m & Hm & Hid & Hv)].
    + exists n. split_and!; [left|done|done].
    + exists m. split_and!; [by right|done|done].
Qed.

Lemma rl_add_nodes_spec nodes (rl : gmap string (gset string)) :
  well_keyed nodes →
  ∃ rl', foldM rl_add_node rl nodes = Ok rl'
    ∧ (∀ k, rl' !! k = None ↔ rl !! k = None)
    ∧ ∀ k a b, rl !! k = Some a → rl' !! k = Some b →
               ∀ w, w ∈ b ↔ w ∈ a ∨ declares nodes w k.
Proof.
  revert rl. induction nodes as [|n nodes IH]; intros rl Hwk.
  - exists rl. split; [done|]. split; [done|].
    intros k a b Ha Hb w. rewrite Ha in Hb. injection Hb as <-.
    unfold declares. set_solver.
  - destruct (Hwk n) as [[u Hu] Hes]; [left|].
    destruct (rl_add_edges_spec u (get_edges n) rl Hes)
      as (rl1 & Hf1 & Hnone1 & Hsome1).
    assert (Hn : rl_add_node rl n = Ok rl1)
      by (unfold rl_add_node; by rewrite Hu).
    destruct (IH rl1) as (rl' & Hf & Hnone & Hsome).
    { intros m Hm. apply Hwk. by right. }
    exists rl'. split; [by rewrite foldM_cons, Hn|]. split.
    + intros k. by rewrite Hnone, Hnone1.
    + intros k a b Ha Hb w.
      destruct (rl1 !! k) as [c|] eqn:Hc.
      * rewrite (Hsome k c b Hc Hb), (Hsome1 k a c Ha Hc), (declares_cons n nodes u) by done.
        unfold targets_of. tauto.
      * apply Hnone1 in Hc. congruence.
Qed.

(** On a list with all its keys [build_reverse_lookup] returns a mapping
    whose keys are the node ids and whose values are the direct referrers. *)
Lemma build_reverse_lookup_spec nodes :
  well_keyed nodes →
  ∃ rl, build_reverse_lookup nodes = Ok rl
    ∧ dom rl = all_ids_of nodes
    ∧ ∀ k refs, rl !! k = Some refs → ∀ w, w ∈ refs ↔ declares nodes w k.
Proof.
  intros Hwk.
  set (rl0 := foldl (λ m i, <[i := ∅]> m) (∅ : gmap string (gset string))
                (omap n_id nodes)).
  destruct (rl_add_nodes_spec nodes rl0 Hwk) as (rl & Hf & Hnone & Hsome).
  assert (H0 : ∀ k, rl0 !! k = if decide (k ∈ omap n_id nodes) then Some ∅ else None).
  { intros k. unfold rl0. by rewrite rl_init_lookup, lookup_empty. }
  exists rl. split_and!.
  - unfold build_reverse_lookup. rewrite mapM_ids; [done|].
    intros n Hn. by apply Hwk.
  - apply set_eq. intros k. rewrite elem_of_dom. unfold all_ids_of.
    rewrite elem_of_list_to_set, <- not_eq_None_Some, Hnone, H0.
    case_decide; naive_solver.
  - intros k refs Hk w.
    destruct (rl0 !! k) as [a|] eqn:Ha.
    + rewrite (Hsome k a refs Ha Hk). rewrite H0 in Ha.
      case_decide; [|done]. injection Ha as <-. set_solver.
    + apply Hnone in Ha. congruence.
Qed.

(** C10, as stated, fails: a node without id is a possible input and makes
    [build_reverse_lookup] raise [KeyError]. *)
Lemma build_reverse_lookup_not_total :
  build_reverse_lookup [node_without_id] = KeyError "id"
  ∧ ¬ ∃ rl, build_reverse_lookup [node_without_id] = Ok rl.
Proof. split; [reflexivity|]. intros [rl Hrl]. discriminate Hrl. Qed.

(** C10, amended. On every node list in which each node has an id and each
    edge a target, validated or not, [build_reverse_lookup] returns; an edge
    to an id that no node carries raises nothing and creates no key: the
    keys of the mapping are exactly the node ids, and each value is the set
    of ids of the nodes that declare an edge to the key. *)
Theorem build_reverse_lookup_total (nodes : list node) :
  well_keyed nodes →
  ∃ rl, build_reverse_lookup nodes = Ok rl
    ∧ dom rl = all_ids_of nodes
    ∧ ∀ k refs, rl !! k = Some refs → ∀ w, w ∈ refs ↔ declares nodes w k.
Proof. apply build_reverse_lookup_spec. Qed.

(** ** The index *)

Lemma dict_get_set_eq {V} k (v : V) d : dict_get k (dict_set k v d) = Some v.
Proof.
  induction d as [|[k' v'] d IH]; simpl.
  - by rewrite decide_True.
  - destruct (decide (k' = k)) as [->|Hne]; simpl.
    + by rewrite decide_True.
    + by rewrite decide_False.
Qed.

Lemma dict_get_set_ne {V} k k' (v : V) d :
  k ≠ k' → dict_get k (dict_set k' v d) = dict_get k d.
Proof.
  intros Hne. induction d as [|[k0 v0] d IH]; simpl.
  - by rewrite decide_False.
  - destruct (decide (k0 = k')) as [->|Hne']; simpl.
    + by rewrite !decide_False.
    + by rewrite IH.
Qed.

Lemma has_required_fields n :
  (∀ f, f ∈ required_fields → has_field f n = true) →
  is_Some (n_id n) ∧ is_Some (n_label n) ∧ is_Some (n_type n)
  ∧ is_Some (n_app n) ∧ is_Some (n_owner n) ∧ is_Some (n_last_modified n).
Proof.
  intros Hf. unfold required_fields in Hf.
  split_and!; eapply bool_decide_eq_true_1.
  - apply (Hf "id"). set_solver.
  - apply (Hf "label"). set_solver.
  - apply (Hf "type"). set_solver.
  - apply (Hf "app"). set_solver.
  - apply (Hf "owner"). set_solver.
  - apply (Hf "last_modified"). set_solver.
Qed.

Lemma index_add_node_spec rl idx n N :
  (∀ f, f ∈ required_fields → has_field f n = true) →
  n_id n = Some N →
  ∃ entry, index_add_node rl idx n = Ok (dict_set N entry idx)
    ∧ isolated entry = is_isolated rl n N.
Proof.
  intros Hf HN.
  destruct (has_required_fields n Hf)
    as (_ & [l Hl] & [t Ht] & [a Ha] & [o Ho] & _).
  unfold index_add_node. rewrite HN, Hl, Ht, Ha, Ho. simpl.
  eexists. split; [reflexivity|]. done.
Qed.

Lemma generate_index_loop_spec rl nodes :
  (∀ n f, n ∈ nodes → f ∈ required_fields → has_field f n = true) →
  ∀ idx, ∃ idx', foldM (index_add_node rl) idx nodes = Ok idx'
    ∧ (∀ k, k ∉ omap n_id nodes → dict_get k idx' = dict_get k idx)
    ∧ (NoDup (omap n_id nodes) → ∀ n N, n ∈ nodes → n_id n = Some N →
       ∃ entry, dict_get N idx' = Some entry
         ∧ isolated entry = is_isolated rl n N).
Proof.
  induction nodes as [|n0 nodes IH]; intros Hf idx.
  - exists idx. split; [done|]. split; [done|].
    intros _ n N Hn. by apply not_elem_of_nil in Hn.
  - assert (Hf0 : ∀ f, f ∈ required_fields → has_field f n0 = true)
      by (intros f; apply Hf; left).
    destruct (has_required_fields n0 Hf0) as ([N0 HN0] & _).
    destruct (index_add_node_spec rl idx n0 N0 Hf0 HN0) as (e0 & He0 & Hiso0).
    destruct (IH (λ n f Hn, Hf n f (list_elem_of_further _ _ _ Hn))
                 (dict_set N0 e0 idx)) as (idx' & Hfold & Hout & Hin).
    assert (Hom : omap n_id (n0 :: nodes) = N0 :: omap n_id nodes)
      by (change (omap n_id (n0 :: nodes))
            with (match n_id n0 with
                  | Some y => y :: omap n_id nodes
                  | None => omap n_id nodes
                  end); by rewrite HN0).
    exists idx'. split; [by rewrite foldM_cons, He0|]. rewrite Hom. split.
    + intros k Hk. apply not_elem_of_cons in Hk as [Hk0 Hk].
      rewrite (Hout k Hk). by apply dict_get_set_ne.
    + intros [Hnotin Hnd]%NoDup_cons n N [->|Hn]%elem_of_cons HN.
      * assert (N = N0) as -> by congruence.
        exists e0. split; [|done].
        rewrite (Hout N0 Hnotin). apply dict_get_set_eq.
      * by apply (Hin Hnd).
Qed.

Lemma get_edges_nil n :
  get_edges n = [] ↔ n_edges n = None ∨ n_edges n = Some [].
Proof.
  unfold get_edges. destruct (n_edges n) as [es|]; simpl; [|naive_solver].
  split; [intros ->; by right|]. intros [?|[=]]; done.
Qed.

Lemma is_isolated_true rl n N refs :
  rl !! N = Some refs →
  is_isolated rl n N = true ↔ get_edges n = [] ∧ refs = ∅.
Proof.
  intros Hrl. unfold is_isolated. rewrite Hrl.
  rewrite andb_true_iff, !negb_true_iff, !bool_decide_eq_false.
  split; intros [H1 H2]; split.
  - by destruct (decide (get_edges n = [])).
  - by destruct (decide (refs = ∅)).
  - by intros ?.
  - by intros ?.
Qed.

(** C7. On a validated node list the index has a record for every node
    [n] (with id [N]), and its [isolated] flag is [true] exactly when the
    ["edges"] list of [n] is absent or empty and the set of referrers of
    [N] in the reverse lookup is empty, that is, when no other node
    declares an edge to [N]; in every other case the flag is [false]. *)
Theorem isolated_iff_no_edges_no_referrers (nodes : list node) (n : node)
    (N : string) :
  validate_nodes nodes = [] → n ∈ nodes → n_id n = Some N →
  ∃ rl index entry,
    build_reverse_lookup nodes = Ok rl
    ∧ generate_index_json nodes rl = Ok index
    ∧ dict_get N index = Some entry
    ∧ (isolated entry = true ↔
         (n_edges n = None ∨ n_edges n = Some []) ∧ rl !! N = Some ∅)
    ∧ (isolated entry = true ↔
         (n_edges n = None ∨ n_edges n = Some [])
         ∧ ∀ m, m ∈ nodes → m ≠ n → N ∉ targets_of m)
    ∧ (isolated entry = false ↔
         ¬ ((n_edges n = None ∨ n_edges n = Some [])
            ∧ ∀ m, m ∈ nodes → m ≠ n → N ∉ targets_of m)).
Proof.
  intros Hv Hn HN.
  destruct (build_reverse_lookup_spec nodes (validate_nil_well_keyed nodes Hv))
    as (rl & Hrl & Hdom & Hrefs).
  destruct (generate_index_loop_spec rl nodes
              (λ m f Hm Hf, validate_nil_fields nodes m f Hv Hm Hf) [])
    as (index & Hix & _ & Hin).
  destruct (Hin (validate_nil_NoDup nodes Hv) n N Hn HN) as (entry & Hget & Hiso).
  assert (is_Some (rl !! N)) as [refs HrlN].
  { apply elem_of_dom. rewrite Hdom. apply elem_of_all_ids_of. eauto. }
  assert (Hempty : refs = ∅ ↔ ∀ m, m ∈ nodes → N ∉ targets_of m).
  { split.
    - intros -> m Hm Ht.
      destruct (validate_nil_id nodes m Hv Hm) as [w Hw].
      assert (w ∈ (∅ : gset string)) as Hw'
        by (apply (Hrefs N ∅ HrlN); exists m; eauto).
      set_solver.
    - intros Hno. apply set_eq. intros w. rewrite (Hrefs N refs HrlN).
      split; [|set_solver]. intros (m & Hm & _ & Ht). by destruct (Hno m Hm). }
  assert (H1 : isolated entry = true ↔
            (n_edges n = None ∨ n_edges n = Some []) ∧ rl !! N = Some ∅).
  { rewrite Hiso, (is_isolated_true rl n N refs HrlN), get_edges_nil, HrlN.
    split; intros [? ?]; split; congruence. }
  assert (H2 : isolated entry = true ↔
            (n_edges n = None ∨ n_edges n = Some [])
            ∧ ∀ m, m ∈ nodes → m ≠ n → N ∉ targets_of m).
  { rewrite Hiso, (is_isolated_true rl n N refs HrlN), get_edges_nil, Hempty.
    split; intros [He Hno]; (split; [done|]).
    - intros m Hm _. by apply Hno.
    - intros m Hm. destruct (decide (m = n)) as [->|Hne]; [|by apply Hno].
      unfold targets_of. apply get_edges_nil in He. rewrite He. set_solver. }
  exists rl, index, entry. split_and!; [done..|].
  rewrite <- H2. by destruct (isolated entry).
Qed.

(** ** The run *)

(** C8. When [validate_nodes] reports at least one error, the run ends
    with [sys.exit(1)], a non-zero status, and has performed no file-system
    operation: no directory created, no file written.  Nothing of the later
    stages is run: the outcome is the same on inputs on which the builders
    would raise. *)
Theorem failed_validation_writes_nothing (set_iter : gset edge → list edge)
    (nodes : list node) (validate_only : bool) (output_dir : string) :
  validate_nodes nodes ≠ [] →
  main set_iter nodes validate_only output_dir = ([], Exit 1) ∧ 1 ≠ 0.
Proof.
  intros Herr. split; [|done]. unfold main.
  by rewrite bool_decide_eq_true_2.
Qed.

(** ** The order of tuples and [sorted] *)

Lemma ascii_compare_refl a : Ascii.compare a a = Eq.
Proof. unfold Ascii.compare. apply N.compare_refl. Qed.

Lemma ascii_compare_lt_trans a b c :
  Ascii.compare a b = Lt → Ascii.compare b c = Lt → Ascii.compare a c = Lt.
Proof.
  unfold Ascii.compare. rewrite !N.compare_lt_iff. apply N.lt_trans.
Qed.

Lemma string_compare_refl s : String.compare s s = Eq.
Proof.
  induction s as [|c s IH]; simpl; [done|]. by rewrite ascii_compare_refl.
Qed.

Lemma string_compare_lt_trans s1 s2 s3 :
  String.compare s1 s2 = Lt → String.compare s2 s3 = Lt →
  String.compare s1 s3 = Lt.
Proof.
  revert s2 s3. induction s1 as [|c1 s1 IH]; intros [|c2 s2] [|c3 s3];
    simpl; try done.
  destruct (Ascii.compare c1 c2) eqn:H12; [|clear IH|done].
  - apply Ascii.compare_eq_iff in H12 as ->.
    destruct (Ascii.compare c2 c3); [apply IH|done|done].
  - intros _. destruct (Ascii.compare c2 c3) eqn:H23; [| |done].
    + apply Ascii.compare_eq_iff in H23 as <-. by rewrite H12.
    + intros _. by rewrite (ascii_compare_lt_trans c1 c2 c3).
Qed.

Lemma string_leb_trans s1 s2 s3 :
  String.leb s1 s2 = true → String.leb s2 s3 = true → String.leb s1 s3 = true.
Proof.
  unfold String.leb.
  destruct (String.compare s1 s2) eqn:H12; [| |done].
  - by apply String.compare_eq_iff in H12 as ->.
  - destruct (String.compare s2 s3) eqn:H23; [| |done].
    + apply String.compare_eq_iff in H23 as <-. by rewrite H12.
    + by rewrite (string_compare_lt_trans s1 s2 s3).
Qed.

#[global] Instance edge_le_trans : Transitive edge_le.
Proof.
  intros [a1 b1] [a2 b2] [a3 b3]. unfold edge_le, edge_leb. simpl.
  destruct (String.compare a1 a2) eqn:H12; [| |done].
  - apply String.compare_eq_iff in H12 as ->.
    destruct (String.compare a2 a3); [apply string_leb_trans|done|done].
  - destruct (String.compare a2 a3) eqn:H23; [| |done].
    + apply String.compare_eq_iff in H23 as <-. by rewrite H12.
    + by rewrite (string_compare_lt_trans a1 a2 a3).
Qed.

#[global] Instance edge_le_total : Total edge_le.
Proof.
  intros [a1 b1] [a2 b2]. unfold edge_le, edge_leb. simpl.
  rewrite (String.compare_antisym a2 a1).
  destruct (String.compare a1 a2) eqn:H12; simpl.
  - apply String.leb_total.
  - by left.
  - by right.
Qed.

#[global] Instance edge_le_antisym : AntiSymm eq edge_le.
Proof.
  intros [a1 b1] [a2 b2]. unfold edge_le, edge_leb. simpl.
  rewrite (String.compare_antisym a2 a1).
  destruct (String.compare a1 a2) eqn:H12; simpl; [|done|done].
  apply String.compare_eq_iff in H12 as ->.
  intros H1 H2. by rewrite (String.leb_antisym _ _ H1 H2).
Qed.

Lemma sorted_StronglySorted xs : StronglySorted edge_le (sorted xs).
Proof. apply StronglySorted_merge_sort; apply _. Qed.

Lemma sorted_Permutation xs : sorted xs ≡ₚ xs.
Proof. apply merge_sort_Permutation. Qed.

(** [sorted] of two listings of the same tuples is the same list. *)
Lemma sorted_proper xs ys : xs ≡ₚ ys → sorted xs = sorted ys.
Proof.
  intros Hp. apply (StronglySorted_unique edge_le);
    [apply sorted_StronglySorted..|].
  by rewrite !sorted_Permutation.
Qed.

(** ** The emitted graph *)

Lemma reach_ext adj adj' start_id x :
  (∀ u v, v ∈ neighbors_of adj u ↔ v ∈ neighbors_of adj' u) →
  reach adj start_id x → reach adj' start_id x.
Proof.
  intros Hn. induction 1 as [|u v _ IH Hv]; [constructor|].
  eapply reach_step; [done|]. by apply Hn.
Qed.

Lemma closure_edge_ext adj adj' direction start_id e :
  (∀ u v, v ∈ neighbors_of adj u ↔ v ∈ neighbors_of adj' u) →
  closure_edge adj direction start_id e ↔ closure_edge adj' direction start_id e.
Proof.
  intros Hn. unfold closure_edge.
  split; intros (u & v & -> & Hr & Hv); exists u, v; split_and!;
    [done|eapply reach_ext; [|done]; done|by apply Hn
    |done|eapply reach_ext; [|done]; intros; symmetry; apply Hn|by apply Hn].
Qed.

(** Two traversals over structures with the same neighbours record the
    same pairs, whatever the order of the neighbour lists. *)
Lemma collect_transitive_edges_ext adj adj' direction start_id :
  (∀ u v, v ∈ neighbors_of adj u ↔ v ∈ neighbors_of adj' u) →
  ∃ es es', collect_transitive_edges start_id adj direction = Ok es
    ∧ collect_transitive_edges start_id adj' direction = Ok es'
    ∧ (list_to_set es : gset edge) = list_to_set es'.
Proof.
  intros Hn.
  destruct (collect_transitive_edges_spec start_id adj direction)
    as (es & He & _ & Hm).
  destruct (collect_transitive_edges_spec start_id adj' direction)
    as (es' & He' & _ & Hm').
  exists es, es'. split_and!; [done..|].
  apply set_eq. intros e. rewrite !elem_of_list_to_set, Hm, Hm'.
  by apply closure_edge_ext.
Qed.

Lemma collect_all_edges_ext iter iter' N og ic og' ic' :
  set_iter_valid iter → set_iter_valid iter' →
  (∀ u v, v ∈ neighbors_of og u ↔ v ∈ neighbors_of og' u) →
  (∀ u v, v ∈ neighbors_of ic u ↔ v ∈ neighbors_of ic' u) →
  collect_all_edges_for_node iter N og ic
  = collect_all_edges_for_node iter' N og' ic'.
Proof.
  intros Hi Hi' Hog Hic. unfold collect_all_edges_for_node.
  destruct (collect_transitive_edges_ext og og' "downstream" N Hog)
    as (d & d' & -> & -> & Hd).
  destruct (collect_transitive_edges_ext ic ic' "upstream" N Hic)
    as (u & u' & -> & -> & Hu).
  simpl. do 2 f_equal. apply sorted_proper.
  rewrite (Hi _), (Hi' _), Hd, Hu. done.
Qed.

Lemma mapM_ext {A B} (f g : A → result B) l :
  (∀ a, a ∈ l → f a = g a) → mapM f l = mapM g l.
Proof.
  induction l as [|a l IH]; intros Hfg; simpl; [done|].
  rewrite (Hfg a) by left. rewrite IH; [done|].
  intros b Hb. apply Hfg. by right.
Qed.

Lemma generate_graph_json_iter iter iter' nodes og ic :
  set_iter_valid iter → set_iter_valid iter' →
  generate_graph_json iter nodes og ic = generate_graph_json iter' nodes og ic.
Proof.
  intros Hi Hi'. unfold generate_graph_json.
  rewrite (mapM_ext (graph_node_of iter og ic) (graph_node_of iter' og ic));
    [done|].
  intros n _. unfold graph_node_of.
  destruct (getitem "id" (n_id n)) as [N| |]; simpl; [|done..].
  by rewrite (collect_all_edges_ext iter iter' N og ic og ic).
Qed.

(** C9. Two runs on the same node list differ at most in the order in
    which their sets are iterated.  Whatever these two orders are, both
    runs compute the same [graph.json] content, and they end the same way
    after the same file-system operations with the same contents,
    [index.json] and [graph.json] included.  ([generate_index_json]
    iterates no set: its value depends on its arguments only.) *)
Theorem pipeline_deterministic (iter1 iter2 : gset edge → list edge)
    (nodes : list node) :
  set_iter_valid iter1 → set_iter_valid iter2 →
  (∀ outgoing incoming,
     generate_graph_json iter1 nodes outgoing incoming
     = generate_graph_json iter2 nodes outgoing incoming)
  ∧ (∀ validate_only output_dir,
       main iter1 nodes validate_only output_dir
       = main iter2 nodes validate_only output_dir).
Proof.
  intros H1 H2. split.
  - intros og ic. by apply generate_graph_json_iter.
  - intros vo dir. unfold main, generate_files.
    destruct (bool_decide _); [done|]. destruct vo; [done|].
    destruct (build_reverse_lookup nodes); [|done..].
    destruct (build_graph_structures nodes) as [[og ic]| |]; [|done..].
    by rewrite (generate_graph_json_iter iter1 iter2).
Qed.

Lemma collect_all_edges_spec iter N og ic :
  set_iter_valid iter →
  ∃ down up es,
    collect_transitive_edges N og "downstream" = Ok down
    ∧ collect_transitive_edges N ic "upstream" = Ok up
    ∧ collect_all_edges_for_node iter N og ic = Ok es
    ∧ (∀ s t, EdgeObj s t ∈ es ↔ (s, t) ∈ down ∨ (s, t) ∈ up)
    ∧ NoDup es
    ∧ StronglySorted edge_obj_le es.
Proof.
  intros Hi.
  destruct (collect_transitive_edges_spec N og "downstream") as (down & Hd & _).
  destruct (collect_transitive_edges_spec N ic "upstream") as (up & Hu & _).
  exists down, up. eexists. split_and!; [done|done| | | |].
  - unfold collect_all_edges_for_node. rewrite Hd, Hu. reflexivity.
  - intros s t. rewrite list_elem_of_fmap. split.
    + intros ([s' t'] & [= -> ->] & He). simpl in He.
      rewrite sorted_Permutation, (Hi _), elem_of_elements in He. set_solver.
    + intros He. exists (s, t). split; [done|].
      rewrite sorted_Permutation, (Hi _), elem_of_elements. set_solver.
  - apply NoDup_fmap_2.
    + intros [s1 t1] [s2 t2] [= -> ->]. done.
    + rewrite sorted_Permutation, (Hi _). apply NoDup_elements.
  - eapply StronglySorted_fmap; [|apply sorted_StronglySorted].
    intros [s1 t1] [s2 t2] Hle. exact Hle.
Qed.

Lemma mapM_Forall2 {A B} (f : A → result B) l bs :
  mapM f l = Ok bs → Forall2 (λ a b, f a = Ok b) l bs.
Proof.
  revert bs. induction l as [|a l IH]; intros bs; simpl.
  - intros [= <-]. constructor.
  - destruct (f a) as [b| |] eqn:Hb; simpl; [|done..].
    destruct (mapM f l) as [bs'| |]; simpl; [|done..].
    intros [= <-]. constructor; [done|]. by apply IH.
Qed.

Lemma mapM_Ok {A B} (f : A → result B) l :
  (∀ a, a ∈ l → ∃ b, f a = Ok b) → ∃ bs, mapM f l = Ok bs.
Proof.
  induction l as [|a l IH]; intros Hf; simpl; [by eexists|].
  destruct (Hf a) as [b ->]; [left|].
  destruct IH as [bs ->]; [intros a' Ha'; apply Hf; by right|].
  by eexists.
Qed.

Lemma mapM_related {A B} (f g : A → result B) (R : A → A → Prop) l l' :
  (∀ a a', R a a' → f a = g a') → Forall2 R l l' → mapM f l = mapM g l'.
Proof.
  intros Hfg. induction 1 as [|a a' l l' Ha _ IH]; simpl; [done|].
  by rewrite (Hfg a a' Ha), IH.
Qed.

Lemma graph_node_of_spec iter og ic n N :
  set_iter_valid iter →
  (∀ f, f ∈ required_fields → has_field f n = true) →
  n_id n = Some N →
  ∃ gn es, graph_node_of iter og ic n = Ok gn
    ∧ collect_all_edges_for_node iter N og ic = Ok es
    ∧ g_id gn = N ∧ g_edges gn = es.
Proof.
  intros Hi Hf HN.
  destruct (has_required_fields n Hf)
    as (_ & [l Hl] & [t Ht] & [a Ha] & [o Ho] & [d Hd]).
  destruct (collect_all_edges_spec iter N og ic Hi)
    as (down & up & es & _ & _ & Hes & _).
  unfold graph_node_of. rewrite HN, Hl, Ht, Ha, Ho, Hd. simpl.
  rewrite Hes. simpl. eexists _, es. split_and!; [reflexivity|done..].
Qed.

Lemma graph_node_of_inv iter og ic n gn :
  graph_node_of iter og ic n = Ok gn →
  n_id n = Some (g_id gn)
  ∧ collect_all_edges_for_node iter (g_id gn) og ic = Ok (g_edges gn).
Proof.
  unfold graph_node_of.
  destruct (n_id n) as [N|]; simpl; [|done].
  destruct (collect_all_edges_for_node iter N og ic) as [es| |] eqn:Hes;
    simpl; [|done..].
  destruct (n_label n); simpl; [|done]. destruct (n_type n); simpl; [|done].
  destruct (n_app n); simpl; [|done]. destruct (n_owner n); simpl; [|done].
  destruct (n_last_modified n); simpl; [|done].
  by intros [= <-].
Qed.

Lemma same_order_targets n n' v :
  same_but_edge_order n n' → v ∈ targets_of n' ↔ v ∈ targets_of n.
Proof.
  intros (_ & _ & _ & _ & _ & _ & Hp). unfold targets_of.
  rewrite !list_elem_of_omap. by setoid_rewrite Hp.
Qed.

Lemma same_order_declares nodes nodes' u v :
  Forall2 same_but_edge_order nodes nodes' →
  declares nodes' u v ↔ declares nodes u v.
Proof.
  intros HF. unfold declares. split.
  - intros (n' & [i Hi]%list_elem_of_lookup & Hid & Hv).
    destruct (Forall2_lookup_r _ _ _ _ _ HF Hi) as (n & Hn & Hs).
    exists n. split_and!.
    + by eapply list_elem_of_lookup_2.
    + destruct Hs as (<- & _). done.
    + by apply (same_order_targets n n').
  - intros (n & [i Hi]%list_elem_of_lookup & Hid & Hv).
    destruct (Forall2_lookup_l _ _ _ _ _ HF Hi) as (n' & Hn & Hs).
    exists n'. split_and!.
    + by eapply list_elem_of_lookup_2.
    + destruct Hs as (-> & _). done.
    + by apply (same_order_targets n n').
Qed.

Lemma same_order_well_keyed nodes nodes' :
  Forall2 same_but_edge_order nodes nodes' →
  well_keyed nodes → well_keyed nodes'.
Proof.
  intros HF Hwk n' [i Hi]%list_elem_of_lookup.
  destruct (Forall2_lookup_r _ _ _ _ _ HF Hi) as (n & Hn & Hs).
  apply list_elem_of_lookup_2 in Hn. destruct (Hwk n Hn) as [Hid He].
  destruct Hs as (-> & _ & _ & _ & _ & _ & Hp). split; [done|].
  intros e Hin. apply He. by rewrite <- Hp.
Qed.

Lemma same_order_graph_node iter iter' og ic og' ic' n n' :
  set_iter_valid iter → set_iter_valid iter' →
  (∀ u v, v ∈ neighbors_of og u ↔ v ∈ neighbors_of og' u) →
  (∀ u v, v ∈ neighbors_of ic u ↔ v ∈ neighbors_of ic' u) →
  same_but_edge_order n n' →
  graph_node_of iter og ic n = graph_node_of iter' og' ic' n'.
Proof.
  intros Hi Hi' Hog Hic (H1 & H2 & H3 & H4 & H5 & H6 & _).
  unfold graph_node_of. rewrite H1, H2, H3, H4, H5, H6.
  destruct (getitem "id" (n_id n)) as [N| |]; simpl; [|done..].
  by rewrite (collect_all_edges_ext iter iter' N og ic og' ic').
Qed.

(** C4. On a validated node list, and whatever the order in which sets
    are iterated, [graph.json] is produced and has an entry for every node
    id [N] of the list; in every entry for [N], the ["edges"] list
    - holds exactly the pairs of the downstream closure of [N] over
      [outgoing] and of the upstream closure of [N] over [incoming];
    - holds no pair twice;
    - is sorted in the lexicographic order of [(source, target)];
    and a list of the same nodes with the edges of each node declared in
    another order yields the same document. *)
Theorem graph_edges_are_sorted_union (set_iter : gset edge → list edge)
    (nodes : list node) (n : node) (N : string) :
  set_iter_valid set_iter →
  validate_nodes nodes = [] → n ∈ nodes → n_id n = Some N →
  ∃ outgoing incoming down up graph,
    build_graph_structures nodes = Ok (outgoing, incoming)
    ∧ collect_transitive_edges N outgoing "downstream" = Ok down
    ∧ collect_transitive_edges N incoming "upstream" = Ok up
    ∧ generate_graph_json set_iter nodes outgoing incoming = Ok graph
    ∧ (∃ gn, gn ∈ nodes_of_graph graph ∧ g_id gn = N)
    ∧ (∀ gn, gn ∈ nodes_of_graph graph → g_id gn = N →
         (∀ s t, EdgeObj s t ∈ g_edges gn ↔ (s, t) ∈ down ∨ (s, t) ∈ up)
         ∧ NoDup (g_edges gn)
         ∧ StronglySorted edge_obj_le (g_edges gn))
    ∧ (∀ set_iter' nodes',
         set_iter_valid set_iter' →
         Forall2 same_but_edge_order nodes nodes' →
         ∃ outgoing' incoming',
           build_graph_structures nodes' = Ok (outgoing', incoming')
           ∧ generate_graph_json set_iter' nodes' outgoing' incoming'
             = Ok graph).
Proof.
  intros Hi Hv Hn HN.
  pose proof (validate_nil_well_keyed nodes Hv) as Hwk.
  destruct (build_graph_structures_spec nodes Hwk)
    as (og & ic & Hb & Hog & Hic).
  destruct (collect_all_edges_spec set_iter N og ic Hi)
    as (down & up & es & Hd & Hu & Hes & Hmem & Hnd & Hso).
  destruct (mapM_Ok (graph_node_of set_iter og ic) nodes) as [gns Hg].
  { intros m Hm.
    destruct (validate_nil_id nodes m Hv Hm) as [M HM].
    destruct (graph_node_of_spec set_iter og ic m M Hi
                (λ f, validate_nil_fields nodes m f Hv Hm) HM)
      as (gn & _ & -> & _).
    by eexists. }
  pose proof (mapM_Forall2 _ _ _ Hg) as HF.
  exists og, ic, down, up, (GraphJson "1.0.0" gns).
  split_and!; [done|done|done| | | |].
  - unfold generate_graph_json. by rewrite Hg.
  - apply list_elem_of_lookup in Hn as [i Hi'].
    destruct (Forall2_lookup_l _ _ _ _ _ HF Hi') as (gn & Hgn & Hok).
    exists gn. split; [by eapply list_elem_of_lookup_2|].
    apply graph_node_of_inv in Hok as [Hid _]. congruence.
  - simpl. intros gn [i Hgn]%list_elem_of_lookup Hid.
    destruct (Forall2_lookup_r _ _ _ _ _ HF Hgn) as (m & _ & Hok).
    apply graph_node_of_inv in Hok as [_ Hce].
    rewrite Hid, Hes in Hce. injection Hce as <-. done.
  - intros iter' nodes' Hi' Hre.
    destruct (build_graph_structures_spec nodes'
                (same_order_well_keyed nodes nodes' Hre Hwk))
      as (og' & ic' & Hb' & Hog' & Hic').
    exists og', ic'. split; [done|].
    unfold generate_graph_json.
    rewrite <- (mapM_related (graph_node_of set_iter og ic)
                  (graph_node_of iter' og' ic') same_but_edge_order
                  nodes nodes'); [by rewrite Hg| |done].
    intros m m' Hm. apply same_order_graph_node; [done|done| | |done].
    + intros u v. rewrite Hog, Hog'. symmetry. by apply same_order_declares.
    + intros u v. rewrite Hic, Hic'. symmetry. by apply same_order_declares.
Qed.

(** * The statements on the sample data *)

Lemma iter_up_valid : set_iter_valid iter_up.
Proof. intros X. reflexivity. Qed.

Lemma iter_down_valid : set_iter_valid iter_down.
Proof. intros X. apply reverse_Permutation. Qed.

Lemma sample_nodes_valid : validate_nodes sample_nodes = [].
Proof. vm_compute. reflexivity. Qed.

Lemma closure_is_reachable_edges_witness :
  ∃ outgoing incoming down up,
    build_graph_structures sample_nodes = Ok (outgoing, incoming)
    ∧ collect_transitive_edges "a-search-macro" outgoing "downstream" = Ok down
    ∧ collect_transitive_edges "a-search-macro" incoming "upstream" = Ok up
    ∧ (∀ u v, (u, v) ∈ down
              ↔ reach outgoing "a-search-macro" u ∧ v ∈ neighbors_of outgoing u)
    ∧ (∀ u v, (u, v) ∈ up
              ↔ reach incoming "a-search-macro" v ∧ u ∈ neighbors_of incoming v)
    ∧ (∀ u v, v ∈ neighbors_of outgoing u ↔ declares sample_nodes u v)
    ∧ (∀ u v, u ∈ neighbors_of incoming v ↔ declares sample_nodes u v)
    ∧ (∀ x, reach outgoing "a-search-macro" x
            ↔ rtc (declares sample_nodes) "a-search-macro" x)
    ∧ (∀ x, reach incoming "a-search-macro" x
            ↔ rtc (flip (declares sample_nodes)) "a-search-macro" x).
Proof.
  apply (closure_is_reachable_edges sample_nodes "a-search-macro").
  - vm_compute. reflexivity.
  - apply elem_of_all_ids_of. exists (sample_node "a-search-macro" ["b-search-macro"]).
    split; [left|reflexivity].
Defined.

Lemma graph_edges_are_sorted_union_witness :
  ∃ outgoing incoming down up graph,
    build_graph_structures sample_nodes = Ok (outgoing, incoming)
    ∧ collect_transitive_edges "b-search-macro" outgoing "downstream" = Ok down
    ∧ collect_transitive_edges "b-search-macro" incoming "upstream" = Ok up
    ∧ generate_graph_json iter_up sample_nodes outgoing incoming = Ok graph
    ∧ (∃ gn, gn ∈ nodes_of_graph graph ∧ g_id gn = "b-search-macro")
    ∧ (∀ gn, gn ∈ nodes_of_graph graph → g_id gn = "b-search-macro" →
         (∀ s t, EdgeObj s t ∈ g_edges gn ↔ (s, t) ∈ down ∨ (s, t) ∈ up)
         ∧ NoDup (g_edges gn)
         ∧ StronglySorted edge_obj_le (g_edges gn))
    ∧ (∀ set_iter' nodes',
         set_iter_valid set_iter' →
         Forall2 same_but_edge_order sample_nodes nodes' →
         ∃ outgoing' incoming',
           build_graph_structures nodes' = Ok (outgoing', incoming')
           ∧ generate_graph_json set_iter' nodes' outgoing' incoming'
             = Ok graph).
Proof.
  apply (graph_edges_are_sorted_union iter_up sample_nodes
           (sample_node "b-search-macro" ["a-search-macro"; "c-search-macro"])
           "b-search-macro").
  - exact iter_up_valid.
  - vm_compute. reflexivity.
  - right. left.
  - reflexivity.
Defined.

Lemma self_loop_closure_witness :
  collect_transitive_edges "a-search-macro" sample_self_loop "downstream"
  = Ok [("a-search-macro", "a-search-macro")].
Proof.
  apply (self_loop_closure sample_self_loop "a-search-macro" 0).
  vm_compute. reflexivity.
Defined.

Lemma isolated_iff_no_edges_no_referrers_witness :
  ∃ rl index entry,
    build_reverse_lookup sample_nodes = Ok rl
    ∧ generate_index_json sample_nodes rl = Ok index
    ∧ dict_get "d-search-macro" index = Some entry
    ∧ (isolated entry = true ↔
         (n_edges (sample_node "d-search-macro" []) = None
          ∨ n_edges (sample_node "d-search-macro" []) = Some [])
         ∧ rl !! "d-search-macro" = Some ∅)
    ∧ (isolated entry = true ↔
         (n_edges (sample_node "d-search-macro" []) = None
          ∨ n_edges (sample_node "d-search-macro" []) = Some [])
         ∧ ∀ m, m ∈ sample_nodes → m ≠ sample_node "d-search-macro" [] →
                "d-search-macro" ∉ targets_of m)
    ∧ (isolated entry = false ↔
         ¬ ((n_edges (sample_node "d-search-macro" []) = None
             ∨ n_edges (sample_node "d-search-macro" []) = Some [])
            ∧ ∀ m, m ∈ sample_nodes → m ≠ sample_node "d-search-macro" [] →
                   "d-search-macro" ∉ targets_of m)).
Proof.
  apply (isolated_iff_no_edges_no_referrers sample_nodes
           (sample_node "d-search-macro" []) "d-search-macro").
  - vm_compute. reflexivity.
  - do 3 right. left.
  - reflexivity.
Defined.

Lemma failed_validation_writes_nothing_witness :
  main iter_up sample_dangling false "out" = ([], Exit 1) ∧ 1 ≠ 0.
Proof.
  apply (failed_validation_writes_nothing iter_up sample_dangling false "out").
  vm_compute. discriminate.
Defined.

Lemma pipeline_deterministic_witness :
  (∀ outgoing incoming,
     generate_graph_json iter_up sample_nodes outgoing incoming
     = generate_graph_json iter_down sample_nodes outgoing incoming)
  ∧ (∀ validate_only output_dir,
       main iter_up sample_nodes validate_only output_dir
       = main iter_down sample_nodes validate_only output_dir).
Proof.
  apply (pipeline_deterministic iter_up iter_down sample_nodes).
  - exact iter_up_valid.
  - exact iter_down_valid.
Defined.

Lemma sample_dangling_well_keyed : well_keyed sample_dangling.
Proof.
  intros n ->%list_elem_of_singleton. split; [by eexists|].
  intros e ->%list_elem_of_singleton. by eexists.
Qed.

Lemma build_reverse_lookup_total_witness :
  validate_nodes sample_dangling ≠ []
  ∧ ∃ rl, build_reverse_lookup sample_dangling = Ok rl
      ∧ dom rl = all_ids_of sample_dangling
      ∧ ∀ k refs, rl !! k = Some refs →
                  ∀ w, w ∈ refs ↔ declares sample_dangling w k.
Proof.
  split.
  - vm_compute. discriminate.
  - apply (build_reverse_lookup_total sample_dangling).
    exact sample_dangling_well_keyed.
Defined.

(** * Further properties *)

(** ** The validator *)

Lemma split_length sep s : length (split sep s) = S (occurrences sep s).
Proof.
  induction s as [|c s IH]; simpl; [done|].
  destruct (Ascii.eqb c sep); simpl; [by rewrite IH|].
  destruct (split sep s) as [|p ps]; [done|]. exact IH.
Qed.

(** An id passes [validate_id_format] exactly when it holds at least two
    hyphens; nothing is asked of the segments between them, which may be
    empty. *)
Theorem validate_id_format_hyphens (node_id : string) :
  validate_id_format node_id = true ↔ 2 ≤ occurrences "-" node_id.
Proof.
  unfold validate_id_format. rewrite bool_decide_eq_true, split_length. lia.
Qed.

Lemma validate_loop_elem all_ids i l seen_ids e :
  e ∈ validate_loop all_ids i l seen_ids →
  ∃ j n, l !! j = Some n
    ∧ e ∈ (check_node all_ids (i + j) n
             (list_to_set (omap n_id (take j l)) ∪ seen_ids)).2.
Proof.
  revert i seen_ids. induction l as [|n l IH]; intros i seen_ids; simpl.
  - by intros ?%not_elem_of_nil.
  - pose proof (check_node_seen all_ids i n seen_ids) as Hseen.
    destruct (check_node all_ids i n seen_ids) as [seen' errs] eqn:Hc.
    simpl in Hseen. subst seen'.
    intros [He|He]%elem_of_app.
    + exists 0, n. split; [done|]. simpl.
      replace (i + 0) with i by lia.
      replace ((∅ : gset string) ∪ seen_ids) with seen_ids by set_solver.
      by rewrite Hc.
    + apply IH in He as (j & m & Hj & He). exists (S j), m. split; [done|].
      replace (i + S j) with (S i + j) by lia.
      replace (list_to_set (omap n_id (take (S j) (n :: l))) ∪ seen_ids)
        with (list_to_set (omap n_id (take j l))
              ∪ (list_to_set (omap n_id [n]) ∪ seen_ids) : gset string); [done|].
      simpl. destruct (n_id n); simpl; set_solver.
Qed.

Lemma elem_of_omap_take_ids (nodes : list node) j x :
  x ∈ omap n_id (take j nodes) →
  ∃ i n, i < j ∧ nodes !! i = Some n ∧ n_id n = Some x.
Proof.
  intros (n & [i Hi]%list_elem_of_lookup & Hid)%list_elem_of_omap.
  apply lookup_take_Some in Hi as [Hi Hlt]. eauto.
Qed.

Lemma validate_nodes_sound_aux (nodes : list node) (e : verror) :
  e ∈ validate_nodes nodes → violation nodes e.
Proof.
  intros (j & n & Hj & He)%validate_loop_elem. simpl in He.
  assert (Hn : n ∈ nodes) by (by eapply list_elem_of_lookup_2).
  unfold check_node in He. destruct (n_id n) as [x|] eqn:Hx; simpl in He.
  - apply elem_of_app in He as [He|He].
    { apply missing_fields_spec in He as (f & -> & Hf & Hh). simpl. eauto. }
    unfold id_checks in He. rewrite !elem_of_app in He.
    destruct He as [He|[He|[He|He]]].
    + case_decide as Hd; [|by apply not_elem_of_nil in He].
      apply list_elem_of_singleton in He as ->. simpl.
      apply elem_of_union in Hd as [Hd|Hd]; [|set_solver].
      apply elem_of_list_to_set, elem_of_omap_take_ids in Hd
        as (i & n1 & Hlt & Hi & Hid).
      exists i, j, n1, n. done.
    + destruct (validate_id_format x) eqn:Hf; [by apply not_elem_of_nil in He|].
      apply list_elem_of_singleton in He as ->. simpl. split; [eauto|].
      apply validate_id_format_spec in Hf. rewrite split_length in Hf. lia.
    + destruct (n_type n) as [t|] eqn:Ht; [|by apply not_elem_of_nil in He].
      case_decide; [by apply not_elem_of_nil in He|].
      apply list_elem_of_singleton in He as ->. simpl. exists n. done.
    + apply list_elem_of_bind in He as (d & He & Hd). unfold check_edge in He.
      destruct (e_target d) as [t|] eqn:Ht.
      * case_decide as Hin; [by apply not_elem_of_nil in He|].
        apply list_elem_of_singleton in He as ->. simpl.
        exists n, d. split_and!; [done..|].
        intros m Hm Hmt. apply Hin, elem_of_all_ids_of. eauto.
      * apply list_elem_of_singleton in He as ->. simpl. exists n, d. done.
  - apply missing_fields_spec in He as (f & -> & Hf & Hh). simpl. eauto.
Qed.

(** Every message of [validate_nodes] reports a violation that the node
    list has: the validator raises no false alarm. *)
Theorem validate_nodes_sound (nodes : list node) (e : verror) :
  e ∈ validate_nodes nodes → violation nodes e.
Proof. intros He. by apply validate_nodes_sound_aux. Qed.

Lemma sample_dangling_errors :
  validate_nodes sample_dangling
  = [DanglingTarget "a-search-macro" "z-search-macro"].
Proof. vm_compute. reflexivity. Qed.

Lemma validate_nodes_sound_witness :
  violation sample_dangling (DanglingTarget "a-search-macro" "z-search-macro").
Proof.
  apply (validate_nodes_sound sample_dangling).
  rewrite sample_dangling_errors. apply list_elem_of_here.
Defined.

Lemma validate_nil_checks nodes n x :
  validate_nodes nodes = [] → n ∈ nodes → n_id n = Some x →
  validate_id_format x = true
  ∧ ∀ t, n_type n = Some t → t ∈ valid_types.
Proof.
  intros Hv [i Hi]%list_elem_of_lookup Hx.
  pose proof (validate_nil_at nodes i n Hv Hi) as Hc.
  unfold check_node in Hc. rewrite Hx in Hc. simpl in Hc.
  apply app_eq_nil in Hc as [_ Hc]. unfold id_checks in Hc.
  apply app_eq_nil in Hc as [_ Hc]. apply app_eq_nil in Hc as [Hf Hc].
  apply app_eq_nil in Hc as [Ht _]. split.
  - by destruct (validate_id_format x).
  - intros t Hty. rewrite Hty in Ht. by case_decide.
Qed.

Lemma NoDup_ids_lookup nodes i j n1 n2 x :
  NoDup (omap n_id nodes) → i < j →
  nodes !! i = Some n1 → nodes !! j = Some n2 →
  n_id n1 = Some x → n_id n2 = Some x → False.
Proof.
  intros Hnd Hlt Hi Hj H1 H2.
  rewrite <- (take_drop_middle nodes j n2 Hj) in Hnd.
  rewrite omap_app in Hnd. apply NoDup_app in Hnd as (_ & Hdis & _).
  apply (Hdis x).
  - apply list_elem_of_omap. exists n1. split; [|done].
    apply list_elem_of_lookup. exists i. by apply lookup_take_Some.
  - apply list_elem_of_omap. exists n2. split; [left|done].
Qed.

(** [validate_nodes] returns the empty list exactly on the node lists that
    respect the schema: every node has the six required fields, no two
    nodes share an id, every id has at least two hyphens, every type is one
    of the eight known types, and every edge has a target that is the id of
    a node of the list. *)
Theorem validate_nodes_nil_iff (nodes : list node) :
  validate_nodes nodes = [] ↔ well_formed nodes.
Proof.
  split.
  - intros Hv. split_and!.
    + intros n f. by apply validate_nil_fields.
    + by apply validate_nil_NoDup.
    + intros n x Hn Hx.
      destruct (validate_nil_checks nodes n x Hv Hn Hx) as [Hf _].
      unfold validate_id_format in Hf.
      apply bool_decide_eq_true in Hf. rewrite split_length in Hf. lia.
    + intros n t Hn Ht. destruct (validate_nil_id nodes n Hv Hn) as [x Hx].
      destruct (validate_nil_checks nodes n x Hv Hn Hx) as [_ Hty]. by apply Hty.
    + intros n d Hn Hd.
      destruct (validate_nil_edge nodes n d Hv Hn Hd) as (t & Ht & Hin).
      apply elem_of_all_ids_of in Hin as (m & Hm & Hmt). eauto.
  - intros (Hf & Hnd & Hfmt & Hty & Hed).
    destruct (validate_nodes nodes) as [|e errs] eqn:Hv; [done|exfalso].
    assert (He : violation nodes e).
    { apply validate_nodes_sound_aux. rewrite Hv. left. }
    destruct e as [i f|x|x|x t|x|x t]; simpl in He.
    + destruct He as (n & Hi & Hrf & Hh).
      apply list_elem_of_lookup_2 in Hi. rewrite (Hf n f Hi Hrf) in Hh. done.
    + destruct He as (i & j & n1 & n2 & Hlt & Hi & Hj & H1 & H2).
      by eapply (NoDup_ids_lookup nodes i j).
    + destruct He as ((n & Hn & Hx) & Hlt). specialize (Hfmt n x Hn Hx). lia.
    + destruct He as (n & Hn & _ & Ht & Hnot). by apply Hnot, (Hty n).
    + destruct He as (n & d & Hn & _ & Hd & Hnone).
      destruct (Hed n d Hn Hd) as (t & _ & Ht & _). congruence.
    + destruct He as (n & d & Hn & _ & Hd & Ht & Hno).
      destruct (Hed n d Hn Hd) as (t' & m & Ht' & Hm & Hmt).
      apply (Hno m Hm). congruence.
Qed.

(** ** The builders *)


Lemma mapM_raises_only {A B} K (f : A → result B) l :
  (∀ a, a ∈ l → raises_only K (f a)) → raises_only K (mapM f l).
Proof.
  induction l as [|a l IH]; intros Hf; [done|]. simpl.
  pose proof (Hf a (list_elem_of_here _ _)) as Ha.
  destruct (f a) as [b| |]; simpl in *; [|done..].
  assert (Hl : raises_only K (mapM f l))
    by (apply IH; intros a0 Ha0; apply Hf; by right).
  by destruct (mapM f l).
Qed.

Lemma foldM_Ok_inv {A B} (f : B → A → result B) b l b' :
  foldM f b l = Ok b' → ∀ a, a ∈ l → ∃ b1 b2, f b1 a = Ok b2.
Proof.
  revert b. induction l as [|a l IH]; intros b Hf a0 Ha0.
  - by apply not_elem_of_nil in Ha0.
  - rewrite foldM_cons in Hf. destruct (f b a) as [b1| |] eqn:Hb; [|done..].
    simpl in Hf. apply elem_of_cons in Ha0 as [->|Ha0]; [eauto|].
    by eapply IH.
Qed.








Lemma dom_dd_append k v (d : adjacency) : dom (dd_append k v d) = {[k]} ∪ dom d.
Proof. unfold dd_append. by rewrite dom_insert_L. Qed.

Lemma dom_dd_ensure k (d : adjacency) : dom (dd_ensure k d) = {[k]} ∪ dom d.
Proof.
  unfold dd_ensure. destruct (d !! k) eqn:Hk.
  - apply elem_of_dom_2 in Hk. set_solver.
  - by rewrite dom_insert_L.
Qed.

Lemma omap_target_cons e es t :
  e_target e = Some t → omap e_target (e :: es) = t :: omap e_target es.
Proof.
  intros Ht.
  change (omap e_target (e :: es))
    with (match e_target e with
          | Some y => y :: omap e_target es
          | None => omap e_target es
          end).
  by rewrite Ht.
Qed.

Lemma gs_add_edges_exact u es (g : adjacency * adjacency) :
  (∀ e, e ∈ es → is_Some (e_target e)) →
  ∃ g', foldM (gs_add_edge u) g es = Ok g'
    ∧ (∀ x, neighbors_of g'.1 x
            = neighbors_of g.1 x
              ++ (if decide (x = u) then omap e_target es else []))
    ∧ (∀ v, neighbors_of g'.2 v
            = neighbors_of g.2 v
              ++ ((λ _, u) <$> filter (λ t, t = v) (omap e_target es)))
    ∧ (u ∈ dom g.1 → dom g'.1 = dom g.1)
    ∧ dom g'.2 = dom g.2 ∪ list_to_set (omap e_target es).
Proof.
  revert g. induction es as [|e es IH]; intros g Hes.
  - exists g. split; [done|]. split_and!.
    + intros x. case_decide; by rewrite app_nil_r.
    + intros v. by rewrite app_nil_r.
    + done.
    + change (omap e_target []) with (@nil string). set_solver.
  - destruct (Hes e) as [t Ht]; [left|].
    destruct (IH (dd_append u t g.1, dd_append t u g.2))
      as (g' & Hg' & H1 & H2 & H3 & H4).
    { intros e' He'. apply Hes. by right. }
    assert (He : gs_add_edge u g e = Ok (dd_append u t g.1, dd_append t u g.2))
      by (unfold gs_add_edge; by rewrite Ht).
    exists g'. split; [by rewrite foldM_cons, He|].
    rewrite (omap_target_cons e es t Ht). simpl in *. split_and!.
    + intros x. rewrite H1, neighbors_of_dd_append, <- app_assoc.
      by case_decide.
    + intros v. rewrite H2, neighbors_of_dd_append, <- app_assoc.
      rewrite filter_cons. destruct (decide (v = t)) as [->|Hne].
      * by rewrite decide_True.
      * by rewrite decide_False.
    + intros Hu. rewrite H3; rewrite dom_dd_append; set_solver.
    + rewrite H4, dom_dd_append. set_solver.
Qed.

Lemma gs_add_nodes_exact nodes (g : adjacency * adjacency) :
  well_keyed nodes →
  ∃ g', foldM gs_add_node g nodes = Ok g'
    ∧ (∀ x, neighbors_of g'.1 x = neighbors_of g.1 x ++ out_list nodes x)
    ∧ (∀ v, neighbors_of g'.2 v = neighbors_of g.2 v ++ in_list nodes v)
    ∧ dom g'.1 = dom g.1 ∪ all_ids_of nodes
    ∧ dom g'.2 = dom g.2 ∪ all_ids_of nodes
                 ∪ list_to_set (nodes ≫= targets_of).
Proof.
  revert g. induction nodes as [|n nodes IH]; intros g Hwk.
  - exists g. split; [done|]. unfold out_list, in_list, all_ids_of.
    split_and!; [intros; by rewrite app_nil_r..|set_solver|set_solver].
  - destruct (Hwk n) as [[u Hu] Hes]; [left|].
    destruct (gs_add_edges_exact u (get_edges n)
                (dd_ensure u g.1, dd_ensure u g.2) Hes)
      as (g1 & Hg1 & H1 & H2 & H3 & H4).
    destruct (IH g1) as (g' & Hg' & H1' & H2' & H3' & H4').
    { intros m Hm. apply Hwk. by right. }
    assert (Hn : gs_add_node g n = Ok g1)
      by (unfold gs_add_node; by rewrite Hu).
    assert (Hids : all_ids_of (n :: nodes) = {[u]} ∪ all_ids_of nodes).
    { unfold all_ids_of.
      change (omap n_id (n :: nodes))
        with (match n_id n with
              | Some y => y :: omap n_id nodes
              | None => omap n_id nodes
              end).
      by rewrite Hu. }
    exists g'. split; [by rewrite foldM_cons, Hn|].
    simpl in H1, H2, H3, H4. split_and!.
    + intros x. rewrite H1', H1, neighbors_of_dd_ensure, <- app_assoc.
      unfold out_list. rewrite bind_cons, Hu. f_equal. f_equal.
      destruct (decide (x = u)) as [->|Hne].
      * by rewrite decide_True.
      * rewrite decide_False; [done|congruence].
    + intros v. rewrite H2', H2, neighbors_of_dd_ensure, <- app_assoc.
      unfold in_list. by rewrite bind_cons, Hu.
    + rewrite H3', H3, dom_dd_ensure, Hids; [set_solver|].
      rewrite dom_dd_ensure. set_solver.
    + rewrite H4', H4, dom_dd_ensure, Hids, bind_cons, list_to_set_app_L.
      unfold targets_of. set_solver.
Qed.

Lemma out_list_nil nodes x : x ∉ omap n_id nodes → out_list nodes x = [].
Proof.
  unfold out_list. induction nodes as [|n nodes IH]; intros Hx; [done|].
  rewrite bind_cons. case_decide as Hn.
  - exfalso. apply Hx. apply list_elem_of_omap. exists n. split; [left|done].
  - simpl. apply IH. intros Hin. apply Hx.
    apply list_elem_of_omap in Hin as (m & Hm & Hid).
    apply list_elem_of_omap. exists m. split; [by right|done].
Qed.

Lemma out_list_NoDup nodes n x :
  NoDup (omap n_id nodes) → n ∈ nodes → n_id n = Some x →
  out_list nodes x = targets_of n.
Proof.
  induction nodes as [|n0 nodes IH]; intros Hnd Hn Hx.
  - by apply not_elem_of_nil in Hn.
  - unfold out_list. rewrite bind_cons. fold (out_list nodes x).
    destruct (n_id n0) as [x0|] eqn:Hx0.
    + change (omap n_id (n0 :: nodes))
        with (match n_id n0 with
              | Some y => y :: omap n_id nodes
              | None => omap n_id nodes
              end) in Hnd.
      rewrite Hx0 in Hnd. apply NoDup_cons in Hnd as [Hnotin Hnd].
      apply elem_of_cons in Hn as [->|Hn].
      * assert (x0 = x) as -> by congruence.
        rewrite decide_True by done.
        by rewrite (out_list_nil nodes x Hnotin), app_nil_r.
      * rewrite decide_False.
        { simpl. by apply IH. }
        intros [= ->]. apply Hnotin. apply list_elem_of_omap. eauto.
    + change (omap n_id (n0 :: nodes))
        with (match n_id n0 with
              | Some y => y :: omap n_id nodes
              | None => omap n_id nodes
              end) in Hnd.
      rewrite Hx0 in Hnd.
      apply elem_of_cons in Hn as [->|Hn]; [congruence|].
      rewrite decide_False by done. simpl. by apply IH.
Qed.

(** On a list in which every node has an id and every edge a target,
    [build_graph_structures] keeps order and multiplicity: [outgoing[x]]
    is the list of targets declared by the nodes with id [x], and
    [incoming[v]] lists the declaring id once for each declared edge to
    [v], both in declaration order.  The keys of [outgoing] are the node
    ids; the keys of [incoming] are the node ids and every declared target,
    also one that is no node's id.  When ids are distinct, [outgoing[x]] is
    exactly the target list of the node with id [x]. *)
Theorem build_graph_structures_lists (nodes : list node) :
  well_keyed nodes →
  ∃ outgoing incoming,
    build_graph_structures nodes = Ok (outgoing, incoming)
    ∧ (∀ x, neighbors_of outgoing x = out_list nodes x)
    ∧ (∀ v, neighbors_of incoming v = in_list nodes v)
    ∧ dom outgoing = all_ids_of nodes
    ∧ dom incoming = all_ids_of nodes ∪ list_to_set (nodes ≫= targets_of)
    ∧ (NoDup (omap n_id nodes) →
       ∀ n x, n ∈ nodes → n_id n = Some x →
              outgoing !! x = Some (targets_of n)).
Proof.
  intros Hwk.
  destruct (gs_add_nodes_exact nodes (∅, ∅) Hwk)
    as ([og ic] & Hg & H1 & H2 & H3 & H4).
  simpl in *. exists og, ic.
  assert (Hout : ∀ x, neighbors_of og x = out_list nodes x).
  { intros x. rewrite H1. unfold neighbors_of. by rewrite lookup_empty. }
  assert (Hdom : dom og = all_ids_of nodes) by (rewrite H3; set_solver).
  split_and!; [done|done| |done| |].
  - intros v. rewrite H2. unfold neighbors_of. by rewrite lookup_empty.
  - rewrite H4. set_solver.
  - intros Hnd n x Hn Hx.
    assert (is_Some (og !! x)) as [l Hl].
    { apply elem_of_dom. rewrite Hdom. apply elem_of_all_ids_of. eauto. }
    rewrite Hl. f_equal.
    rewrite <- (out_list_NoDup nodes n x Hnd Hn Hx), <- Hout.
    unfold neighbors_of. by rewrite Hl.
Qed.

Lemma build_graph_structures_lists_witness :
  ∃ outgoing incoming,
    build_graph_structures sample_dangling = Ok (outgoing, incoming)
    ∧ (∀ x, neighbors_of outgoing x = out_list sample_dangling x)
    ∧ (∀ v, neighbors_of incoming v = in_list sample_dangling v)
    ∧ dom outgoing = all_ids_of sample_dangling
    ∧ dom incoming = all_ids_of sample_dangling
                     ∪ list_to_set (sample_dangling ≫= targets_of)
    ∧ (NoDup (omap n_id sample_dangling) →
       ∀ n x, n ∈ sample_dangling → n_id n = Some x →
              outgoing !! x = Some (targets_of n)).
Proof.
  apply (build_graph_structures_lists sample_dangling).
  exact sample_dangling_well_keyed.
Defined.

(** ** The closure engine *)

(** A traversal returns the empty list exactly when the start node has no
    neighbours, in particular when it is no key of the structure. *)
Theorem no_neighbours_no_edges (adj : adjacency) (start_id direction : string) :
  (collect_transitive_edges start_id adj direction = Ok []
   ↔ neighbors_of adj start_id = [])
  ∧ (adj !! start_id = None →
     collect_transitive_edges start_id adj direction = Ok []).
Proof.
  destruct (collect_transitive_edges_spec start_id adj direction)
    as (es & Hes & _ & Hm).
  assert (Hiff : es = [] ↔ neighbors_of adj start_id = []).
  { split.
    - intros ->. destruct (neighbors_of adj start_id) as [|v ns] eqn:Hn; [done|].
      exfalso. apply (not_elem_of_nil (oriented direction start_id v)).
      apply Hm. exists start_id, v. split_and!; [done|constructor|].
      rewrite Hn. left.
    - intros Hn.
      assert (Hr : ∀ u, reach adj start_id u → u = start_id).
      { induction 1 as [|u v _ -> Hv]; [done|].
        rewrite Hn in Hv. by apply not_elem_of_nil in Hv. }
      destruct es as [|e es]; [done|exfalso].
      destruct (proj1 (Hm e)) as (u & v & _ & Hu & Hv); [left|].
      apply Hr in Hu as ->. rewrite Hn in Hv. by apply not_elem_of_nil in Hv. }
  split.
  - rewrite Hes. split; [intros [= ->]; by apply Hiff|].
    intros Hn. f_equal. by apply Hiff.
  - intros Hnone. rewrite Hes. f_equal. apply Hiff.
    unfold neighbors_of. by rewrite Hnone.
Qed.

(** A traversal returns, and no pair occurs twice in what it returns,
    however often a neighbour is listed and however many paths lead to an
    edge. *)
Theorem closure_has_no_duplicates (adj : adjacency) (start_id direction : string) :
  ∃ es, collect_transitive_edges start_id adj direction = Ok es ∧ NoDup es.
Proof.
  destruct (collect_transitive_edges_spec start_id adj direction)
    as (es & Hes & Hnd & _).
  by exists es.
Qed.

Lemma oriented_else direction c n :
  direction ≠ "downstream" → oriented direction c n = oriented "upstream" c n.
Proof.
  intros Hd. unfold oriented.
  destruct (String.eqb direction "downstream") eqn:He; [|done].
  by apply String.eqb_eq in He.
Qed.

Lemma visit_neighbor_else direction c st nb :
  direction ≠ "downstream" →
  visit_neighbor direction c st nb = visit_neighbor "upstream" c st nb.
Proof.
  intros Hd. unfold visit_neighbor. by rewrite (oriented_else direction c nb Hd).
Qed.

Lemma foldl_ext_all {A B} (f g : B → A → B) b l :
  (∀ b a, f b a = g b a) → foldl f b l = foldl g b l.
Proof.
  intros Hfg. revert b. induction l as [|a l IH]; intros b; simpl; [done|].
  by rewrite Hfg, IH.
Qed.

Lemma bfs_while_else direction fuel adj st :
  direction ≠ "downstream" →
  bfs_while fuel adj direction st = bfs_while fuel adj "upstream" st.
Proof.
  intros Hd. revert st. induction fuel as [|fuel IH]; intros st; simpl.
  - unfold bfs_iteration. by destruct (queue st).
  - unfold bfs_iteration. destruct (queue st) as [|c rest]; [done|].
    rewrite (foldl_ext_all (visit_neighbor direction c)
               (visit_neighbor "upstream" c)); [apply IH|].
    intros b a. by apply visit_neighbor_else.
Qed.

(** The direction is compared with ["downstream"] only: any other string,
    not only ["upstream"], makes the traversal record [(neighbor, current)]
    pairs, and gives the result of an upstream traversal. *)
Theorem other_direction_is_upstream (adj : adjacency)
    (start_id direction : string) :
  direction ≠ "downstream" →
  collect_transitive_edges start_id adj direction
  = collect_transitive_edges start_id adj "upstream".
Proof.
  intros Hd. unfold collect_transitive_edges. by rewrite bfs_while_else.
Qed.

Lemma other_direction_is_upstream_witness :
  collect_transitive_edges "a-search-macro" sample_self_loop "sideways"
  = collect_transitive_edges "a-search-macro" sample_self_loop "upstream".
Proof.
  apply (other_direction_is_upstream sample_self_loop "a-search-macro" "sideways").
  discriminate.
Defined.

Lemma elem_of_swap_set (V : gset edge) a b :
  (a, b) ∈ (set_map prod_swap V : gset edge) ↔ (b, a) ∈ V.
Proof.
  rewrite elem_of_map. split.
  - intros ([x y] & [= -> ->] & H). done.
  - intros H. exists (b, a). done.
Qed.

Lemma bfs_state_eq (a b : bfs_state) :
  edges a = edges b → visited_edges a = visited_edges b →
  visited_nodes a = visited_nodes b → queue a = queue b → a = b.
Proof. destruct a, b. simpl. by intros -> -> -> ->. Qed.

Lemma visit_neighbor_swap c st nb :
  visit_neighbor "upstream" c (swap_state st) nb
  = swap_state (visit_neighbor "downstream" c st nb).
Proof.
  apply bfs_state_eq.
  - rewrite visit_neighbor_edges. unfold swap_state at 2. simpl.
    rewrite visit_neighbor_edges, fmap_app, oriented_upstream, oriented_downstream.
    f_equal.
    case_decide as H1; case_decide as H2; try done;
      exfalso; (apply H1 || apply H2); by apply elem_of_swap_set.
  - rewrite visit_neighbor_vedges. unfold swap_state at 2. simpl.
    rewrite visit_neighbor_vedges, oriented_upstream, oriented_downstream.
    by rewrite set_map_union_L, set_map_singleton_L.
  - rewrite visit_neighbor_nodes. unfold swap_state at 2. simpl.
    by rewrite visit_neighbor_nodes.
  - rewrite visit_neighbor_queue. unfold swap_state at 2. simpl.
    by rewrite visit_neighbor_queue.
Qed.

Lemma visit_all_swap c ns st :
  foldl (visit_neighbor "upstream" c) (swap_state st) ns
  = swap_state (foldl (visit_neighbor "downstream" c) st ns).
Proof.
  revert st. induction ns as [|nb ns IH]; intros st; simpl; [done|].
  by rewrite visit_neighbor_swap, IH.
Qed.

Lemma bfs_iteration_swap adj st :
  bfs_iteration adj "upstream" (swap_state st)
  = swap_state <$> bfs_iteration adj "downstream" st.
Proof.
  unfold bfs_iteration. simpl. destruct (queue st) as [|c rest]; [done|].
  simpl. f_equal.
  exact (visit_all_swap c (neighbors_of adj c)
           (BfsState (edges st) (visited_edges st) (visited_nodes st) rest)).
Qed.

Lemma bfs_while_swap fuel adj st :
  bfs_while fuel adj "upstream" (swap_state st)
  = st' ← bfs_while fuel adj "downstream" st; Ok (swap_state st').
Proof.
  revert st. induction fuel as [|fuel IH]; intros st; simpl;
    rewrite bfs_iteration_swap;
    destruct (bfs_iteration adj "downstream" st) as [st1|]; simpl; done.
Qed.

(** On one and the same structure the two directions do the same walk:
    the upstream result is the downstream result with every pair turned
    around, in the same order. *)
Theorem upstream_is_downstream_swapped (adj : adjacency) (start_id : string) :
  ∃ es, collect_transitive_edges start_id adj "downstream" = Ok es
      ∧ collect_transitive_edges start_id adj "upstream"
        = Ok (prod_swap <$> es).
Proof.
  destruct (collect_transitive_edges_spec start_id adj "downstream")
    as (es & Hes & _).
  exists es. split; [done|].
  unfold collect_transitive_edges in *.
  change (bfs_init start_id) with (swap_state (bfs_init start_id)).
  rewrite bfs_while_swap.
  destruct (bfs_while _ adj "downstream" (bfs_init start_id)) as [st| |];
    simpl in *; [|done..].
  by injection Hes as <-.
Qed.

(** The closure of a node holds the closure of every node it reaches. *)
Theorem closure_contains_reached_closures (adj : adjacency)
    (start_id mid direction : string) :
  reach adj start_id mid →
  ∃ es es', collect_transitive_edges start_id adj direction = Ok es
    ∧ collect_transitive_edges mid adj direction = Ok es'
    ∧ es' ⊆ es.
Proof.
  intros Hr.
  destruct (collect_transitive_edges_spec start_id adj direction)
    as (es & Hes & _ & Hm).
  destruct (collect_transitive_edges_spec mid adj direction)
    as (es' & Hes' & _ & Hm').
  exists es, es'. split_and!; [done..|].
  intros e. rewrite Hm, Hm'. intros (u & v & -> & Hu & Hv).
  exists u, v. split_and!; [done| |done]. by eapply reach_trans.
Qed.

Lemma closure_contains_reached_closures_witness :
  ∃ es es',
    collect_transitive_edges "a-search-macro" sample_chain "downstream" = Ok es
    ∧ collect_transitive_edges "b-search-macro" sample_chain "downstream" = Ok es'
    ∧ es' ⊆ es.
Proof.
  apply (closure_contains_reached_closures sample_chain
           "a-search-macro" "b-search-macro" "downstream").
  apply (reach_step sample_chain "a-search-macro" "a-search-macro").
  - apply reach_start.
  - vm_compute. apply list_elem_of_here.
Defined.

(** ** The emitters *)

Lemma graph_node_of_for iter og ic n gn :
  graph_node_of iter og ic n = Ok gn → graph_node_for iter og ic n gn.
Proof.
  unfold graph_node_of, graph_node_for.
  destruct (n_id n) as [N|]; simpl; [|done].
  destruct (collect_all_edges_for_node iter N og ic) as [es| |] eqn:Hes;
    simpl; [|done..].
  destruct (n_label n); simpl; [|done]. destruct (n_type n); simpl; [|done].
  destruct (n_app n); simpl; [|done]. destruct (n_owner n); simpl; [|done].
  destruct (n_last_modified n); simpl; [|done].
  by intros [= <-].
Qed.

Lemma has_field_required n :
  is_Some (n_id n) → is_Some (n_label n) → is_Some (n_type n) →
  is_Some (n_app n) → is_Some (n_owner n) → is_Some (n_last_modified n) →
  ∀ f, f ∈ required_fields → has_field f n = true.
Proof.
  intros H1 H2 H3 H4 H5 H6 f Hf. unfold required_fields in Hf.
  repeat (apply elem_of_cons in Hf as [->|Hf];
          [unfold has_field; simpl; by apply bool_decide_eq_true_2|]).
  by apply not_elem_of_nil in Hf.
Qed.

(** [generate_graph_json] returns a document exactly when every node has
    the six required fields, and on any other list it raises [KeyError]
    for one of them; the document has version ["1.0.0"] and one entry per node, in the order of
    the input, with the node's id, label, type, app, owner and
    last_modified and the edge list computed for its id. *)
Theorem graph_json_follows_input (set_iter : gset edge → list edge)
    (nodes : list node) (outgoing incoming : adjacency) :
  ((∃ graph, generate_graph_json set_iter nodes outgoing incoming = Ok graph)
   ↔ ∀ n f, n ∈ nodes → f ∈ required_fields → has_field f n = true)
  ∧ (∀ graph, generate_graph_json set_iter nodes outgoing incoming = Ok graph →
       version graph = "1.0.0"
       ∧ Forall2 (graph_node_for set_iter outgoing incoming)
                 nodes (nodes_of_graph graph))
  ∧ raises_only required_fields
      (generate_graph_json set_iter nodes outgoing incoming).
Proof.
  assert (Hinv : ∀ graph,
    generate_graph_json set_iter nodes outgoing incoming = Ok graph →
    version graph = "1.0.0"
    ∧ Forall2 (graph_node_for set_iter outgoing incoming)
              nodes (nodes_of_graph graph)).
  { intros graph. unfold generate_graph_json.
    destruct (mapM _ nodes) as [gns| |] eqn:Hg; simpl; [|done..].
    intros [= <-]. split; [done|]. simpl.
    apply mapM_Forall2 in Hg.
    eapply Forall2_impl; [exact Hg|]. intros n gn. apply graph_node_of_for. }
  split; [|split; [done|]]; [split|].
  - intros [graph Hgraph] n f [i Hi]%list_elem_of_lookup.
    destruct (Hinv graph Hgraph) as [_ HF].
    destruct (Forall2_lookup_l _ _ _ _ _ HF Hi)
      as (gn & _ & H1 & H2 & H3 & H4 & H5 & H6 & _).
    apply has_field_required; by eexists.
  - intros Hf. unfold generate_graph_json.
    destruct (mapM_Ok (graph_node_of set_iter outgoing incoming) nodes)
      as [gns ->]; [|by eexists].
    intros n Hn.
    destruct (has_required_fields n (λ f, Hf n f Hn))
      as ([N HN] & [l Hl] & [t Ht] & [a Ha] & [o Ho] & [d Hd]).
    unfold graph_node_of. rewrite HN, Hl, Ht, Ha, Ho, Hd. simpl.
    unfold collect_all_edges_for_node.
    destruct (collect_transitive_edges_spec N outgoing "downstream")
      as (down & -> & _).
    destruct (collect_transitive_edges_spec N incoming "upstream")
      as (up & -> & _).
    simpl. by eexists.
  - unfold generate_graph_json.
    assert (Hm : raises_only required_fields
                   (mapM (graph_node_of set_iter outgoing incoming) nodes)).
    { apply mapM_raises_only. intros n _. unfold graph_node_of.
      destruct (n_id n) as [N|]; simpl; [|set_solver].
      unfold collect_all_edges_for_node.
      destruct (collect_transitive_edges_spec N outgoing "downstream")
        as (down & -> & _).
      destruct (collect_transitive_edges_spec N incoming "upstream")
        as (up & -> & _).
      simpl.
      destruct (n_label n); simpl; [|set_solver].
      destruct (n_type n); simpl; [|set_solver].
      destruct (n_app n); simpl; [|set_solver].
      destruct (n_owner n); simpl; [|set_solver].
      destruct (n_last_modified n); simpl; [done|set_solver]. }
    by destruct (mapM _ nodes).
Qed.

(** On a validated node list, whatever the order in which sets are
    iterated, every edge emitted in [graph.json] is an edge that some node
    declares, and the entry of a node holds every edge the node declares
    and every declared edge that targets it. *)
Theorem graph_edges_are_declared (set_iter : gset edge → list edge)
    (nodes : list node) :
  set_iter_valid set_iter → validate_nodes nodes = [] →
  ∃ outgoing incoming graph,
    build_graph_structures nodes = Ok (outgoing, incoming)
    ∧ generate_graph_json set_iter nodes outgoing incoming = Ok graph
    ∧ ∀ gn, gn ∈ nodes_of_graph graph →
        (∀ s t, EdgeObj s t ∈ g_edges gn → declares nodes s t)
        ∧ (∀ v, declares nodes (g_id gn) v → EdgeObj (g_id gn) v ∈ g_edges gn)
        ∧ (∀ u, declares nodes u (g_id gn) → EdgeObj u (g_id gn) ∈ g_edges gn).
Proof.
  intros Hi Hv.
  pose proof (validate_nil_well_keyed nodes Hv) as Hwk.
  destruct (build_graph_structures_spec nodes Hwk)
    as (og & ic & Hb & Hog & Hic).
  destruct (mapM_Ok (graph_node_of set_iter og ic) nodes) as [gns Hg].
  { intros m Hm.
    destruct (validate_nil_id nodes m Hv Hm) as [M HM].
    destruct (graph_node_of_spec set_iter og ic m M Hi
                (λ f, validate_nil_fields nodes m f Hv Hm) HM)
      as (gn & _ & -> & _).
    by eexists. }
  pose proof (mapM_Forall2 _ _ _ Hg) as HF.
  exists og, ic, (GraphJson "1.0.0" gns). split_and!; [done| |].
  { unfold generate_graph_json. by rewrite Hg. }
  simpl. intros gn [i Hgn]%list_elem_of_lookup.
  destruct (Forall2_lookup_r _ _ _ _ _ HF Hgn) as (m & _ & Hok).
  apply graph_node_of_inv in Hok as [_ Hce].
  destruct (collect_all_edges_spec set_iter (g_id gn) og ic Hi)
    as (down & up & es & Hd & Hu & Hes & Hmem & _).
  rewrite Hes in Hce. injection Hce as ->.
  destruct (collect_transitive_edges_spec (g_id gn) og "downstream")
    as (down' & Hd' & _ & Hdm).
  destruct (collect_transitive_edges_spec (g_id gn) ic "upstream")
    as (up' & Hu' & _ & Hum).
  rewrite Hd in Hd'. injection Hd' as <-.
  rewrite Hu in Hu'. injection Hu' as <-.
  split_and!.
  - intros s t [Hin|Hin]%Hmem.
    + apply Hdm in Hin as (a & b & [= -> ->] & _ & Hb'). by apply Hog.
    + apply Hum in Hin as (a & b & [= -> ->] & _ & Hb'). by apply Hic.
  - intros v Hdecl. apply Hmem. left. apply Hdm.
    exists (g_id gn), v. split_and!; [done|constructor|by apply Hog].
  - intros u Hdecl. apply Hmem. right. apply Hum.
    exists (g_id gn), u. split_and!; [done|constructor|by apply Hic].
Qed.

Lemma graph_edges_are_declared_witness :
  ∃ outgoing incoming graph,
    build_graph_structures sample_nodes = Ok (outgoing, incoming)
    ∧ generate_graph_json iter_down sample_nodes outgoing incoming = Ok graph
    ∧ ∀ gn, gn ∈ nodes_of_graph graph →
        (∀ s t, EdgeObj s t ∈ g_edges gn → declares sample_nodes s t)
        ∧ (∀ v, declares sample_nodes (g_id gn) v →
                EdgeObj (g_id gn) v ∈ g_edges gn)
        ∧ (∀ u, declares sample_nodes u (g_id gn) →
                EdgeObj u (g_id gn) ∈ g_edges gn).
Proof.
  apply (graph_edges_are_declared iter_down sample_nodes).
  - exact iter_down_valid.
  - vm_compute. reflexivity.
Defined.

Lemma index_add_node_inv rl idx n idx' :
  index_add_node rl idx n = Ok idx' →
  ∃ kv, index_item_for rl n kv ∧ idx' = dict_set kv.1 kv.2 idx.
Proof.
  unfold index_add_node, index_item_for.
  destruct (n_id n) as [N|]; simpl; [|done].
  destruct (n_label n) as [l|]; simpl; [|done].
  destruct (n_type n) as [t|]; simpl; [|done].
  destruct (n_app n) as [a|]; simpl; [|done].
  destruct (n_owner n) as [o|]; simpl; [|done].
  intros [= <-]. exists (N, IndexEntry l t a o (is_isolated rl n N)).
  simpl. split_and!; reflexivity.
Qed.

Lemma dict_set_fresh {V} k (v : V) d : k ∉ d.*1 → dict_set k v d = d ++ [(k, v)].
Proof.
  induction d as [|[k' v'] d IH]; simpl; [done|].
  intros Hk. apply not_elem_of_cons in Hk as [Hne Hk].
  rewrite decide_False by done. by rewrite IH.
Qed.

Lemma dict_set_keys {V} k (v : V) d :
  (dict_set k v d).*1 = if decide (k ∈ d.*1) then d.*1 else d.*1 ++ [k].
Proof.
  induction d as [|[k' v'] d IH].
  - destruct (decide (k ∈ ([] : list (string * V)).*1)) as [H|H]; [|done].
    by apply not_elem_of_nil in H.
  - change (dict_set k v ((k', v') :: d))
      with (if decide (k' = k) then (k, v) :: d else (k', v') :: dict_set k v d).
    change (((k', v') :: d).*1) with (k' :: d.*1).
    destruct (decide (k' = k)) as [->|Hne].
    + destruct (decide (k ∈ k :: d.*1)) as [H|H]; [done|].
      exfalso. apply H. left.
    + change (((k', v') :: dict_set k v d).*1) with (k' :: (dict_set k v d).*1).
      rewrite IH.
      destruct (decide (k ∈ d.*1)) as [Hin|Hin];
        destruct (decide (k ∈ k' :: d.*1)) as [Hin'|Hin']; try done.
      * exfalso. apply Hin'. by right.
      * exfalso. apply elem_of_cons in Hin' as [?|?]; [congruence|done].
Qed.

Lemma dict_set_NoDup {V} k (v : V) d : NoDup d.*1 → NoDup (dict_set k v d).*1.
Proof.
  intros Hnd. rewrite dict_set_keys. case_decide as Hk; [done|].
  apply NoDup_app. split_and!; [done| |apply NoDup_singleton].
  intros x Hx ->%list_elem_of_singleton. done.
Qed.

Lemma omap_id_cons n nodes N :
  n_id n = Some N → omap n_id (n :: nodes) = N :: omap n_id nodes.
Proof.
  intros HN.
  change (omap n_id (n :: nodes))
    with (match n_id n with
          | Some y => y :: omap n_id nodes
          | None => omap n_id nodes
          end).
  by rewrite HN.
Qed.

Lemma index_loop_fresh rl nodes idx idx' :
  foldM (index_add_node rl) idx nodes = Ok idx' →
  NoDup (idx.*1 ++ omap n_id nodes) →
  ∃ new, idx' = idx ++ new ∧ Forall2 (index_item_for rl) nodes new.
Proof.
  revert idx. induction nodes as [|n nodes IH]; intros idx Hf Hnd.
  - injection Hf as <-. exists []. by rewrite app_nil_r.
  - rewrite foldM_cons in Hf.
    destruct (index_add_node rl idx n) as [idx1| |] eqn:Hn; [|done..].
    simpl in Hf.
    destruct (index_add_node_inv rl idx n idx1 Hn) as ([N e] & Hitem & ->).
    cbn [fst snd] in *. pose proof Hitem as (HN & _). simpl in HN.
    rewrite (omap_id_cons n nodes N HN) in Hnd.
    assert (Hfresh : N ∉ idx.*1).
    { apply NoDup_app in Hnd as (_ & Hdis & _). intros Hin.
      apply (Hdis N Hin). left. }
    rewrite (dict_set_fresh N e idx Hfresh) in Hf.
    destruct (IH (idx ++ [(N, e)]) Hf) as (new & -> & HF).
    { rewrite fmap_app, <- app_assoc. done. }
    exists ((N, e) :: new). split; [by rewrite <- app_assoc|].
    by constructor.
Qed.

Lemma index_loop_last rl nodes idx idx' :
  foldM (index_add_node rl) idx nodes = Ok idx' →
  NoDup idx.*1 →
  NoDup idx'.*1
  ∧ (∀ k, k ∈ idx'.*1 ↔ k ∈ idx.*1 ∨ k ∈ omap n_id nodes)
  ∧ (∀ k, k ∉ omap n_id nodes → dict_get k idx' = dict_get k idx)
  ∧ (∀ l1 n l2 N, nodes = l1 ++ n :: l2 → n_id n = Some N →
       N ∉ omap n_id l2 →
       ∃ entry, dict_get N idx' = Some entry ∧ index_item_for rl n (N, entry)).
Proof.
  revert idx. induction nodes as [|n0 nodes IH]; intros idx Hf Hnd.
  - injection Hf as <-. split_and!; [done|set_solver|done|].
    intros [|? ?] ? ? ? [=].
  - rewrite foldM_cons in Hf.
    destruct (index_add_node rl idx n0) as [idx1| |] eqn:Hn; [|done..].
    simpl in Hf.
    destruct (index_add_node_inv rl idx n0 idx1 Hn) as ([N0 e0] & Hitem & ->).
    cbn [fst snd] in *. pose proof Hitem as (HN0 & _). simpl in HN0.
    destruct (IH _ Hf (dict_set_NoDup N0 e0 idx Hnd))
      as (Hnd' & Hkeys & Hout & Hlast).
    rewrite (omap_id_cons n0 nodes N0 HN0). split_and!.
    + done.
    + intros k. rewrite Hkeys, dict_set_keys, elem_of_cons.
      case_decide; [|rewrite elem_of_app, list_elem_of_singleton];
        naive_solver.
    + intros k [Hne Hk]%not_elem_of_cons.
      rewrite (Hout k Hk). by apply dict_get_set_ne.
    + intros l1 n l2 N Hsplit HN Hnot.
      destruct l1 as [|n1 l1]; simpl in Hsplit.
      * injection Hsplit as -> ->.
        assert (N = N0) as -> by congruence.
        exists e0. split; [|done].
        rewrite (Hout N0 Hnot). apply dict_get_set_eq.
      * injection Hsplit as -> ->. by eapply Hlast.
Qed.

(** [generate_index_json] returns an index exactly when every node has an
    id, a label, a type, an app and an owner ([last_modified] is not
    read).  When the ids of the list are distinct, the index has one item
    per node, in the order of the input, keyed by the node's id and
    copying its label, type, app and owner. *)
Theorem index_json_follows_input (nodes : list node)
    (rl : gmap string (gset string)) :
  ((∃ index, generate_index_json nodes rl = Ok index)
   ↔ ∀ n, n ∈ nodes →
       is_Some (n_id n) ∧ is_Some (n_label n) ∧ is_Some (n_type n)
       ∧ is_Some (n_app n) ∧ is_Some (n_owner n))
  ∧ (∀ index, generate_index_json nodes rl = Ok index →
       NoDup (omap n_id nodes) →
       Forall2 (index_item_for rl) nodes index).
Proof.
  split; [split|].
  - intros [index Hix] n Hn. unfold generate_index_json in Hix.
    destruct (foldM_Ok_inv _ _ _ _ Hix n Hn) as (b1 & b2 & Hb).
    destruct (index_add_node_inv rl b1 n b2 Hb)
      as (kv & (H1 & H2 & H3 & H4 & H5 & _) & _).
    split_and!; by eexists.
  - intros Hf. unfold generate_index_json. generalize (@nil (string * index_entry)).
    induction nodes as [|n nodes IH]; intros idx; [by eexists|].
    destruct (Hf n) as ([N HN] & [l Hl] & [t Ht] & [a Ha] & [o Ho]); [left|].
    assert (∃ idx1, index_add_node rl idx n = Ok idx1) as [idx1 Hn].
    { unfold index_add_node. rewrite HN, Hl, Ht, Ha, Ho. simpl. by eexists. }
    rewrite foldM_cons, Hn. simpl.
    apply IH. intros m Hm. apply Hf. by right.
  - intros index Hix Hnd. unfold generate_index_json in Hix.
    destruct (index_loop_fresh rl nodes [] index Hix Hnd) as (new & -> & HF).
    done.
Qed.

(** Whatever the ids of the list, the index returned by
    [generate_index_json] has no key twice, its keys are the ids of the
    list, and the item of an id is the one of the last node that carries
    this id. *)
Theorem index_json_last_wins (nodes : list node)
    (rl : gmap string (gset string)) (index : list (string * index_entry)) :
  generate_index_json nodes rl = Ok index →
  NoDup index.*1
  ∧ (∀ k, k ∈ index.*1 ↔ k ∈ all_ids_of nodes)
  ∧ (∀ l1 n l2 N, nodes = l1 ++ n :: l2 → n_id n = Some N →
       N ∉ omap n_id l2 →
       ∃ entry, dict_get N index = Some entry ∧ index_item_for rl n (N, entry)).
Proof.
  intros Hix. unfold generate_index_json in Hix.
  destruct (index_loop_last rl nodes [] index Hix (NoDup_nil_2))
    as (Hnd & Hkeys & _ & Hlast).
  split_and!; [done| |done].
  intros k. rewrite Hkeys. unfold all_ids_of. set_solver.
Qed.

Lemma index_json_last_wins_witness :
  NoDup [("a-search-macro",
          IndexEntry "Second" "lookup_def" "search" "admin" true)].*1
  ∧ (∀ k, k ∈ [("a-search-macro",
                IndexEntry "Second" "lookup_def" "search" "admin" true)].*1
          ↔ k ∈ all_ids_of sample_duplicates)
  ∧ (∀ l1 n l2 N, sample_duplicates = l1 ++ n :: l2 → n_id n = Some N →
       N ∉ omap n_id l2 →
       ∃ entry,
         dict_get N [("a-search-macro",
                      IndexEntry "Second" "lookup_def" "search" "admin" true)]
         = Some entry
         ∧ index_item_for ∅ n (N, entry)).
Proof.
  apply (index_json_last_wins sample_duplicates ∅).
  vm_compute. reflexivity.
Defined.

Lemma omap_sublist {A B} (f : A → option B) l1 l2 :
  l1 `sublist_of` l2 → omap f l1 `sublist_of` omap f l2.
Proof.
  induction 1 as [|x l1 l2 _ IH|x l1 l2 _ IH]; simpl.
  - constructor.
  - destruct (f x); [by constructor|done].
  - destruct (f x); [by constructor|done].
Qed.

Lemma length_omap_ids (l : list node) :
  (∀ n, n ∈ l → is_Some (n_id n)) → length (omap n_id l) = length l.
Proof.
  induction l as [|n l IH]; intros Hid; [done|].
  destruct (Hid n) as [N HN]; [left|].
  rewrite (omap_id_cons n l N HN). simpl. f_equal.
  apply IH. intros m Hm. apply Hid. by right.
Qed.

Lemma generate_object_json_spec n rl N :
  (∀ f, f ∈ required_fields → has_field f n = true) → n_id n = Some N →
  ∃ obj, generate_object_json n rl = Ok obj
    ∧ o_id obj = N
    ∧ o_spl_code obj = n_spl_code n
    ∧ upstream_count obj = size (default ∅ (rl !! N))
    ∧ downstream_count obj = length (get_edges n).
Proof.
  intros Hf HN.
  destruct (has_required_fields n Hf)
    as (_ & [l Hl] & [t Ht] & [a Ha] & [o Ho] & [d Hd]).
  unfold generate_object_json. rewrite HN, Hl, Ht, Ha, Ho, Hd. simpl.
  eexists. split; [reflexivity|]. done.
Qed.

(** On a validated node list the object document of a node counts, as
    [downstream_count], the edges the node declares (a target declared
    twice counts twice) and, as [upstream_count], the nodes that declare an
    edge to it (a node counts once, however many edges it declares);
    [spl_code] is copied when present and is absent otherwise; and the
    node is flagged [isolated] in the index exactly when both counts are
    zero. *)
Theorem object_counts (nodes : list node) (n : node) :
  validate_nodes nodes = [] → n ∈ nodes →
  ∃ rl index obj entry,
    build_reverse_lookup nodes = Ok rl
    ∧ generate_index_json nodes rl = Ok index
    ∧ generate_object_json n rl = Ok obj
    ∧ n_id n = Some (o_id obj)
    ∧ o_spl_code obj = n_spl_code n
    ∧ downstream_count obj = length (get_edges n)
    ∧ upstream_count obj
      = length (filter (λ m, o_id obj ∈ targets_of m) nodes)
    ∧ dict_get (o_id obj) index = Some entry
    ∧ (isolated entry = true
       ↔ upstream_count obj = 0 ∧ downstream_count obj = 0).
Proof.
  intros Hv Hn.
  destruct (validate_nil_id nodes n Hv Hn) as [N HN].
  destruct (build_reverse_lookup_spec nodes (validate_nil_well_keyed nodes Hv))
    as (rl & Hrl & Hdom & Hrefs).
  destruct (generate_index_loop_spec rl nodes
              (λ m f Hm Hf, validate_nil_fields nodes m f Hv Hm Hf) [])
    as (index & Hix & _ & Hin).
  destruct (Hin (validate_nil_NoDup nodes Hv) n N Hn HN) as (entry & Hget & Hiso).
  destruct (generate_object_json_spec n rl N
              (λ f, validate_nil_fields nodes n f Hv Hn) HN)
    as (obj & Hobj & Hoid & Hspl & Hup & Hdown).
  assert (is_Some (rl !! N)) as [refs HrlN].
  { apply elem_of_dom. rewrite Hdom. apply elem_of_all_ids_of. eauto. }
  rewrite HrlN in Hup. simpl in Hup.
  assert (Hrefs' : refs
            = list_to_set (omap n_id (filter (λ m, N ∈ targets_of m) nodes))).
  { apply set_eq. intros w.
    rewrite (Hrefs N refs HrlN), elem_of_list_to_set, list_elem_of_omap.
    unfold declares. setoid_rewrite list_elem_of_filter. naive_solver. }
  assert (Hsize : size refs = length (filter (λ m, N ∈ targets_of m) nodes)).
  { rewrite Hrefs', size_list_to_set.
    - apply length_omap_ids. intros m [_ Hm]%list_elem_of_filter.
      by eapply validate_nil_id.
    - eapply sublist_NoDup; [by apply validate_nil_NoDup|].
      apply omap_sublist, sublist_filter. }
  exists rl, index, obj, entry. rewrite Hoid.
  split_and!; [done..|congruence|done|].
  rewrite Hiso, (is_isolated_true rl n N refs HrlN), Hup, Hdown.
  rewrite size_empty_iff, length_zero_iff_nil.
  split.
  - intros [He ->]. done.
  - intros [Hr He]. split; [done|]. by apply leibniz_equiv.
Qed.

Lemma object_counts_witness :
  ∃ rl index obj entry,
    build_reverse_lookup sample_nodes = Ok rl
    ∧ generate_index_json sample_nodes rl = Ok index
    ∧ generate_object_json (sample_node "c-search-macro" []) rl = Ok obj
    ∧ n_id (sample_node "c-search-macro" []) = Some (o_id obj)
    ∧ o_spl_code obj = n_spl_code (sample_node "c-search-macro" [])
    ∧ downstream_count obj = length (get_edges (sample_node "c-search-macro" []))
    ∧ upstream_count obj
      = length (filter (λ m, o_id obj ∈ targets_of m) sample_nodes)
    ∧ dict_get (o_id obj) index = Some entry
    ∧ (isolated entry = true
       ↔ upstream_count obj = 0 ∧ downstream_count obj = 0).
Proof.
  apply (object_counts sample_nodes (sample_node "c-search-macro" [])).
  - vm_compute. reflexivity.
  - do 2 right. left.
Defined.

(** ** The run on a valid input *)




(** The two views of the incoming edges agree: for every node id, the set
    of referrers in the reverse lookup is the set of the entries of
    [incoming] for this id.  They differ on a target that is no node's id:
    it is a key of [incoming] and no key of the reverse lookup. *)
Theorem reverse_lookup_matches_incoming (nodes : list node) :
  well_keyed nodes →
  ∃ rl outgoing incoming,
    build_reverse_lookup nodes = Ok rl
    ∧ build_graph_structures nodes = Ok (outgoing, incoming)
    ∧ (∀ N, N ∈ all_ids_of nodes →
            rl !! N = Some (list_to_set (neighbors_of incoming N)))
    ∧ (∀ t, t ∈ nodes ≫= targets_of → t ∉ all_ids_of nodes →
            rl !! t = None ∧ is_Some (incoming !! t)).
Proof.
  intros Hwk.
  destruct (build_reverse_lookup_spec nodes Hwk) as (rl & Hrl & Hdom & Hrefs).
  destruct (gs_add_nodes_exact nodes (∅, ∅) Hwk)
    as ([og ic] & Hg & _ & _ & _ & Hdic).
  destruct (build_graph_structures_spec nodes Hwk)
    as (og' & ic' & Hg' & _ & Hic).
  unfold build_graph_structures in Hg'. rewrite Hg in Hg'.
  injection Hg' as <- <-. simpl in Hdic.
  exists rl, og, ic. split_and!; [done|done| |].
  - intros N HN.
    assert (is_Some (rl !! N)) as [refs HrlN]
      by (apply elem_of_dom; by rewrite Hdom).
    rewrite HrlN. f_equal. apply set_eq. intros w.
    by rewrite (Hrefs N refs HrlN), elem_of_list_to_set, Hic.
  - intros t Ht Hnot. split.
    + apply not_elem_of_dom. by rewrite Hdom.
    + apply elem_of_dom. rewrite Hdic. set_solver.
Qed.

Lemma reverse_lookup_matches_incoming_witness :
  ∃ rl outgoing incoming,
    build_reverse_lookup sample_dangling = Ok rl
    ∧ build_graph_structures sample_dangling = Ok (outgoing, incoming)
    ∧ (∀ N, N ∈ all_ids_of sample_dangling →
            rl !! N = Some (list_to_set (neighbors_of incoming N)))
    ∧ (∀ t, t ∈ sample_dangling ≫= targets_of →
            t ∉ all_ids_of sample_dangling →
            rl !! t = None ∧ is_Some (incoming !! t)).
Proof.
  apply (reverse_lookup_matches_incoming sample_dangling).
  exact sample_dangling_well_keyed.
Defined.

(** For any two adjacency structures, [collect_all_edges_for_node]
    returns; its list holds exactly the pairs of the two traversals, a
    pair found by both only once, in the lexicographic order of
    [(source, target)]. *)
Theorem all_edges_merged_once (set_iter : gset edge → list edge)
    (node_id : string) (outgoing incoming : adjacency) :
  set_iter_valid set_iter →
  ∃ down up es,
    collect_transitive_edges node_id outgoing "downstream" = Ok down
    ∧ collect_transitive_edges node_id incoming "upstream" = Ok up
    ∧ collect_all_edges_for_node set_iter node_id outgoing incoming = Ok es
    ∧ (∀ s t, EdgeObj s t ∈ es ↔ (s, t) ∈ down ∨ (s, t) ∈ up)
    ∧ NoDup es
    ∧ StronglySorted edge_obj_le es.
Proof. intros Hi. by apply collect_all_edges_spec. Qed.

Lemma all_edges_merged_once_witness :
  ∃ down up es,
    collect_transitive_edges "b-search-macro" sample_chain "downstream" = Ok down
    ∧ collect_transitive_edges "b-search-macro" sample_chain "upstream" = Ok up
    ∧ collect_all_edges_for_node iter_down "b-search-macro"
        sample_chain sample_chain = Ok es
    ∧ (∀ s t, EdgeObj s t ∈ es ↔ (s, t) ∈ down ∨ (s, t) ∈ up)
    ∧ NoDup es
    ∧ StronglySorted edge_obj_le es.
Proof.
  apply (all_edges_merged_once iter_down "b-search-macro"
           sample_chain sample_chain).
  exact iter_down_valid.
Defined.

(** ** The summary statistics *)

Lemma sum_list_cons x l : sum_list (x :: l) = x + sum_list l.
Proof. reflexivity. Qed.

Lemma dict_set_sum k v (d : list (string * nat)) :
  sum_list (dict_set k v d).*2 + default 0 (dict_get k d) = sum_list d.*2 + v.
Proof.
  induction d as [|[k' v'] d IH].
  - simpl. lia.
  - change (dict_set k v ((k', v') :: d))
      with (if decide (k' = k) then (k, v) :: d else (k', v') :: dict_set k v d).
    change (dict_get k ((k', v') :: d))
      with (if decide (k' = k) then Some v' else dict_get k d).
    destruct (decide (k' = k)) as [->|Hne].
    + rewrite !fmap_cons, !sum_list_cons. simpl. lia.
    + rewrite !fmap_cons, !sum_list_cons. cbn [snd].
      rewrite <- Nat.add_assoc, IH. lia.
Qed.

Lemma dict_get_keys {V} k (d : list (string * V)) :
  is_Some (dict_get k d) ↔ k ∈ d.*1.
Proof.
  induction d as [|[k' v'] d IH].
  - split; [by intros [? [=]]|by intros ?%not_elem_of_nil].
  - change (dict_get k ((k', v') :: d))
      with (if decide (k' = k) then Some v' else dict_get k d).
    change (((k', v') :: d).*1) with (k' :: d.*1). rewrite elem_of_cons.
    destruct (decide (k' = k)) as [->|Hne]; [naive_solver|].
    rewrite IH. naive_solver.
Qed.

Lemma type_counts_loop nodes (d : list (string * nat)) :
  (∀ n, n ∈ nodes → is_Some (n_type n)) → NoDup d.*1 →
  ∃ d', foldM count_type d nodes = Ok d'
    ∧ NoDup d'.*1
    ∧ (∀ t, default 0 (dict_get t d')
            = default 0 (dict_get t d)
              + length (filter (λ n, n_type n = Some t) nodes))
    ∧ (∀ t, t ∈ d'.*1 ↔ t ∈ d.*1 ∨ ∃ n, n ∈ nodes ∧ n_type n = Some t)
    ∧ sum_list d'.*2 = sum_list d.*2 + length nodes.
Proof.
  revert d. induction nodes as [|n nodes IH]; intros d Hty Hnd.
  - exists d. split_and!; [done|done|intros; simpl; lia| |simpl; lia].
    intros t. split; [by left|]. intros [?|(n & ?%not_elem_of_nil & _)]; done.
  - destruct (Hty n) as [t0 Ht0]; [left|].
    set (d1 := dict_set t0 (default 0 (dict_get t0 d) + 1) d).
    assert (Hn : count_type d n = Ok d1)
      by (unfold count_type; by rewrite Ht0).
    destruct (IH d1) as (d' & Hf & Hnd' & Hcount & Hkeys & Hsum).
    { intros m Hm. apply Hty. by right. }
    { by apply dict_set_NoDup. }
    exists d'. split; [by rewrite foldM_cons, Hn|]. split_and!.
    + done.
    + intros t. rewrite Hcount, filter_cons. unfold d1.
      destruct (decide (t = t0)) as [->|Hne].
      * rewrite dict_get_set_eq, decide_True by done. simpl. lia.
      * rewrite dict_get_set_ne by done.
        rewrite decide_False by congruence. done.
    + intros t. rewrite Hkeys. unfold d1. rewrite dict_set_keys.
      split.
      * intros [Hin|(m & Hm & Hmt)].
        -- case_decide as Hk; [by left|].
           apply elem_of_app in Hin as [?| ->%list_elem_of_singleton];
             [by left|].
           right. exists n. split; [left|done].
        -- right. exists m. split; [by right|done].
      * intros [Hin|(m & [->|Hm]%elem_of_cons & Hmt)].
        -- left. case_decide; [done|]. apply elem_of_app. by left.
        -- left. assert (t = t0) as -> by congruence.
           case_decide; [done|]. apply elem_of_app. right. left.
        -- right. eauto.
    + rewrite Hsum. unfold d1.
      pose proof (dict_set_sum t0 (default 0 (dict_get t0 d) + 1) d) as Hs.
      rewrite length_cons. revert Hs.
      generalize (sum_list (dict_set t0 (default 0 (dict_get t0 d) + 1) d).*2).
      generalize (default 0 (dict_get t0 d)). generalize (sum_list d.*2).
      intros. lia.
Qed.

(** When every node has a type, the loop that fills [type_counts] ends
    with one item per type that occurs, the count of a type being the
    number of nodes of this type; the counts add up to the number of
    nodes. *)
Theorem type_counts_distribution (nodes : list node) :
  (∀ n, n ∈ nodes → is_Some (n_type n)) →
  ∃ tc, type_counts nodes = Ok tc
    ∧ NoDup tc.*1
    ∧ (∀ t, t ∈ tc.*1 ↔ ∃ n, n ∈ nodes ∧ n_type n = Some t)
    ∧ (∀ t, default 0 (dict_get t tc)
            = length (filter (λ n, n_type n = Some t) nodes))
    ∧ sum_list tc.*2 = length nodes.
Proof.
  intros Hty.
  destruct (type_counts_loop nodes [] Hty (NoDup_nil_2))
    as (tc & Hf & Hnd & Hcount & Hkeys & Hsum).
  exists tc. split_and!; [done|done| |done|done].
  intros t. rewrite Hkeys. split; [|by right].
  intros [?%not_elem_of_nil|?]; done.
Qed.

Lemma type_counts_distribution_witness :
  ∃ tc, type_counts sample_duplicates = Ok tc
    ∧ NoDup tc.*1
    ∧ (∀ t, t ∈ tc.*1 ↔ ∃ n, n ∈ sample_duplicates ∧ n_type n = Some t)
    ∧ (∀ t, default 0 (dict_get t tc)
            = length (filter (λ n, n_type n = Some t) sample_duplicates))
    ∧ sum_list tc.*2 = length sample_duplicates.
Proof.
  apply (type_counts_distribution sample_duplicates).
  intros n Hn. repeat (apply elem_of_cons in Hn as [->|Hn]; [by eexists|]).
  by apply not_elem_of_nil in Hn.
Defined.

Lemma Forall2_elem_of_l {A B} (R : A → B → Prop) l k :
  Forall2 R l k → Forall2 (λ a b, a ∈ l ∧ R a b) l k.
Proof.
  induction 1 as [|a b l k HR _ IH]; constructor.
  - split; [left|done].
  - eapply Forall2_impl; [exact IH|]. intros x y [Hx Hxy]. split; [by right|done].
Qed.

Lemma Forall2_filter_length {A B} (P : A → Prop) (Q : B → Prop)
    `{!∀ a, Decision (P a)} `{!∀ b, Decision (Q b)} l k :
  Forall2 (λ a b, P a ↔ Q b) l k →
  length (filter P l) = length (filter Q k).
Proof.
  induction 1 as [|a b l k HPQ _ IH]; [done|].
  rewrite !filter_cons.
  destruct (decide (P a)) as [Ha|Ha]; destruct (decide (Q b)) as [Hb|Hb];
    simpl; try lia; tauto.
Qed.

Lemma referrers_empty_iff nodes N (refs : gset string) :
  (∀ n, n ∈ nodes → is_Some (n_id n)) →
  (∀ w, w ∈ refs ↔ declares nodes w N) →
  refs = ∅ ↔ Forall (λ m, N ∉ targets_of m) nodes.
Proof.
  intros Hid Hrefs. rewrite Forall_forall. split.
  - intros -> m Hm Ht. destruct (Hid m Hm) as [w Hw].
    assert (w ∈ (∅ : gset string)) as Hw'
      by (apply Hrefs; exists m; eauto).
    set_solver.
  - intros Hno. apply set_eq. intros w. rewrite Hrefs.
    split; [|set_solver]. intros (m & Hm & _ & Ht). by destruct (Hno m Hm).
Qed.

(** On a validated node list, the number of isolated objects that the
    summary reports is the number of nodes that declare no edge and are
    the target of no declared edge. *)
Theorem isolated_count_counts_unlinked (nodes : list node) :
  validate_nodes nodes = [] →
  ∃ rl index,
    build_reverse_lookup nodes = Ok rl
    ∧ generate_index_json nodes rl = Ok index
    ∧ isolated_count index = length (filter (no_links nodes) nodes).
Proof.
  intros Hv.
  pose proof (validate_nil_well_keyed nodes Hv) as Hwk.
  destruct (build_reverse_lookup_spec nodes Hwk) as (rl & Hrl & Hdom & Hrefs).
  destruct (generate_index_loop_spec rl nodes
              (λ m f Hm Hf, validate_nil_fields nodes m f Hv Hm Hf) [])
    as (index & Hix & _).
  destruct (index_loop_fresh rl nodes [] index Hix (validate_nil_NoDup nodes Hv))
    as (new & -> & HF).
  exists rl, new. split_and!; [done|done|].
  unfold isolated_count. symmetry.
  apply Forall2_filter_length.
  eapply Forall2_impl; [apply Forall2_elem_of_l, HF|].
  intros n [N e] [Hn (HN & _ & _ & _ & _ & Hiso)]. simpl in *.
  assert (is_Some (rl !! N)) as [refs HrlN].
  { apply elem_of_dom. rewrite Hdom. apply elem_of_all_ids_of. eauto. }
  pose proof (referrers_empty_iff nodes N refs
                (λ m Hm, validate_nil_id nodes m Hv Hm)
                (Hrefs N refs HrlN)) as Hemp.
  unfold no_links.
  rewrite HN, Hiso, (is_isolated_true rl n N refs HrlN), Hemp. done.
Qed.

Lemma isolated_count_counts_unlinked_witness :
  ∃ rl index,
    build_reverse_lookup sample_nodes = Ok rl
    ∧ generate_index_json sample_nodes rl = Ok index
    ∧ isolated_count index = length (filter (no_links sample_nodes) sample_nodes).
Proof.
  apply (isolated_count_counts_unlinked sample_nodes).
  vm_compute. reflexivity.
Defined.
